(** * vscode-flowr: session client, slice reconciliation and dependency view

    A shallow embedding of the parts of the extension that carry its
    protocol logic:

    - [src/flowr/server-session.ts]: frame reassembly ([handleResponse]),
      the one-shot response waiter ([awaitResponse]), [destroy] and the
      location reconciliation of [retrieveSlice];
    - [src/extension.ts]: the module-level session handle and
      [destroySession];
    - the dependency tree view: [textFingerprint], [refresh] and its
      [working] / [lastText] / [textBuffer] state.

    JavaScript strings are sequences of UTF-16 code units; they are modelled
    as [list N].  Objects that the code mutates (the session, the view) are
    records threaded through the functions. *)

From Stdlib Require Import ZArith NArith List Lia Ascii String.
From Stdlib Require Import Sorting.Sorted Permutation.
From stdpp Require Import base option list gmap strings.

Set Default Proof Using "Type".

(* ===================================================================== *)
(** * JavaScript strings                                                  *)
(* ===================================================================== *)

Module JS.

(** A string value: its UTF-16 code units. *)
Definition JSString : Type := list N.

(** Writes a code-unit string from an ASCII literal. *)
Definition js (s : string) : JSString :=
  List.map N_of_ascii (list_ascii_of_string s).

Definition LF : N := 10.
Definition CR : N := 13.
Definition HASH : N := 35.

(** ECMAScript [LineTerminator]: LF, CR, LS, PS. *)
Definition isLineTerminator (c : N) : bool :=
  (c =? 10)%N || (c =? 13)%N || (c =? 8232)%N || (c =? 8233)%N.

(** ECMAScript [WhiteSpace]: TAB, VT, FF, ZWNBSP and the Unicode
    space separators. *)
Definition isWhiteSpace (c : N) : bool :=
  (c =? 9)%N || (c =? 11)%N || (c =? 12)%N || (c =? 32)%N || (c =? 160)%N
  || (c =? 5760)%N || ((8192 <=? c)%N && (c <=? 8202)%N)
  || (c =? 8239)%N || (c =? 8287)%N || (c =? 12288)%N || (c =? 65279)%N.

(** The class [\s] of a regular expression, which is also what
    [String.prototype.trim] strips: white space and line terminators. *)
Definition isSpace (c : N) : bool := isWhiteSpace c || isLineTerminator c.

(** [s.endsWith(String.fromCharCode(c))]. *)
Fixpoint endsWith (s : JSString) (c : N) : bool :=
  match s with
  | [] => false
  | [x] => (x =? c)%N
  | _ :: tl => endsWith tl c
  end.

(** The longest prefix whose units satisfy [p], and what follows it. *)
Fixpoint takeWhile (p : N -> bool) (s : JSString) : JSString :=
  match s with
  | c :: tl => if p c then c :: takeWhile p tl else []
  | [] => []
  end.

Fixpoint dropWhile (p : N -> bool) (s : JSString) : JSString :=
  match s with
  | c :: tl => if p c then dropWhile p tl else s
  | [] => []
  end.

(** [s.trim()]. *)
Definition trim (s : JSString) : JSString :=
  rev (dropWhile isSpace (rev (dropWhile isSpace s))).

End JS.

Import JS.

(* ===================================================================== *)
(** * The dependency view's text fingerprint                              *)
(* ===================================================================== *)

Module Fingerprint.

(** ** The regular expression [/\s|^\s*#.*$/gm]

    A match attempt at one position sees the code unit [before] the
    position ([None] at index 0) and the input [rest] from the position
    on, and answers with the number of units it matches. *)

(** Assertion [^] under the [m] flag: index 0, or just after a line
    terminator of the input. *)
Definition atLineStart (before : option N) : bool :=
  match before with
  | None => true
  | Some c => isLineTerminator c
  end.

(** First alternative, [\s]: one space unit. *)
Definition altSpace (rest : JSString) : option nat :=
  match rest with
  | c :: _ => if isSpace c then Some 1 else None
  | [] => None
  end.

(** Second alternative, [^\s*#.*$].  [\s*] is greedy; giving units back
    cannot help, since a unit given back is a space and not [#].  [.*]
    is greedy over units that are no line terminator, so it stops at a
    line terminator or at the end of the input, where [$] holds. *)
Definition altComment (before : option N) (rest : JSString) : option nat :=
  if atLineStart before then
    let ws := takeWhile isSpace rest in
    match dropWhile isSpace rest with
    | c :: tl =>
        if (c =? HASH)%N
        then Some (length ws + 1 + length (takeWhile (fun u => negb (isLineTerminator u)) tl))
        else None
    | [] => None
    end
  else None.

(** The alternation: the first alternative that matches wins. *)
Definition regexExec (before : option N) (rest : JSString) : option nat :=
  match altSpace rest with
  | Some n => Some n
  | None => altComment before rest
  end.

(** [s.replace(re, '')] with the [g] flag: matches are searched from
    left to right, each search resuming where the previous match ended;
    matched units are removed, the others are kept.  [skip] counts the
    units of the current match that remain to be removed. *)
Fixpoint replaceGo (before : option N) (skip : nat) (rest : JSString) : JSString :=
  match rest with
  | [] => []
  | c :: tl =>
      match skip with
      | S k => replaceGo (Some c) k tl
      | O =>
          match regexExec before rest with
          | Some (S n) => replaceGo (Some c) n tl
          | _ => c :: replaceGo (Some c) 0 tl
          end
      end
  end.

Definition replaceAll (s : JSString) : JSString := replaceGo None 0 s.

(** [textFingerprint(text)]:
    [text.trim().replace(/\s|^\s*#.*$/gm, '')]. *)
Definition textFingerprint (text : JSString) : JSString :=
  replaceAll (trim text).

(** ** The normalisation the specification describes

    "Normalized document text (whitespace and comment-line stripped)":
    the lines whose first unit that is no space is [#] are removed, and
    the space units of the other lines are removed.  This definition
    follows the specification's words; it is compared with
    [textFingerprint] above. *)

(** The lines of a text, split at line terminators. *)
Fixpoint splitLines (cur : JSString) (s : JSString) : list JSString :=
  match s with
  | [] => [rev cur]
  | c :: tl =>
      if isLineTerminator c then rev cur :: splitLines [] tl
      else splitLines (c :: cur) tl
  end.

Definition isCommentLine (line : JSString) : bool :=
  match dropWhile isSpace line with
  | c :: _ => (c =? HASH)%N
  | [] => false
  end.

Definition stripSpace (line : JSString) : JSString :=
  List.filter (fun c => negb (isSpace c)) line.

Definition specNormalize (text : JSString) : JSString :=
  concat (List.map stripSpace
            (List.filter (fun l => negb (isCommentLine l)) (splitLines [] text))).

Abbreviation notLT := (fun u => negb (isLineTerminator u)).

Abbreviation normLines ls :=
  (concat (List.map stripSpace (List.filter (fun l => negb (isCommentLine l)) ls))).

(** The texts on which the two agree: every comment line has its [#] in
    the first column. *)
Definition commentsInFirstColumn (text : JSString) : Prop :=
  Forall (fun l => isCommentLine l = true -> head l = Some HASH) (splitLines [] text).

(** What the replacement leaves of the input from the end of a line on:
    the line terminator is a space and is removed, and the scan goes on
    after it. *)
Definition afterLine (rest : JSString) : JSString :=
  match rest with
  | [] => []
  | c :: tl => replaceGo (Some c) 0 tl
  end.

(** The end of a line: the end of the input, or a line terminator. *)
Definition atLineEnd (rest : JSString) : Prop :=
  match rest with
  | [] => True
  | c :: _ => isLineTerminator c = true
  end.

End Fingerprint.

(* ===================================================================== *)
(** * The server session ([src/flowr/server-session.ts])                  *)
(* ===================================================================== *)

Module ServerSession.

(** A promise created by [awaitResponse].  The executor keeps only
    [resolve], so the session has no way to reject one; [Rejected] is
    part of the state space of a JavaScript promise all the same. *)
Inductive PromiseState : Type :=
| Pending
| Fulfilled (line : JSString)
| Rejected (reason : JSString).

(** The [net.Socket] of the session, as far as the session uses it:
    whether it was destroyed, and the data written to it.  A destroyed
    socket stays destroyed ([socket.destroy()] on a destroyed socket does
    nothing) and drops writes. *)
Record Socket : Type := mkSocket {
  destroyed : bool;
  written : list JSString
}.

Definition socket_destroy (k : Socket) : Socket :=
  if destroyed k then k else mkSocket true (written k).

Definition socket_write (k : Socket) (data : JSString) : Socket :=
  if destroyed k then k else mkSocket false (written k ++ [data]).

(** The lines appended to the output channel. *)
Inductive LogLine : Type :=
| LogConnecting
| LogConnected
| LogServerError (message : JSString)
| LogReceived (message : JSString)
| LogSending (command : JSString)
| LogSlice (ids : JSString).

(** The session object, together with the promises that [awaitResponse]
    has created, addressed by their order of creation.  The closure
    stored in [onceOnLineReceived] is the [resolve] function of one of
    them and is represented by that promise's index. *)
Record Session : Type := mkSession {
  socket : Socket;
  idCounter : nat;
  currentMessageBuffer : JSString;
  onceOnLineReceived : option nat;
  outputChannel : list LogLine;
  promises : list PromiseState
}.

(** The session right after its constructor ran. *)
Definition newSession : Session :=
  mkSession (mkSocket false []) 0 [] None [LogConnecting] [].

(** Calling [resolve(line)] of promise [p]: settles it if it is still
    pending, and does nothing otherwise. *)
Definition resolvePromise (p : nat) (line : JSString)
    (ps : list PromiseState) : list PromiseState :=
  match ps !! p with
  | Some Pending => <[p := Fulfilled line]> ps
  | _ => ps
  end.

(** [this.onceOnLineReceived?.(message)]. *)
Definition callWaiter (w : option nat) (message : JSString)
    (ps : list PromiseState) : list PromiseState :=
  match w with
  | Some p => resolvePromise p message ps
  | None => ps
  end.

(** [destroy()]. *)
Definition destroy (s : Session) : Session :=
  mkSession (socket_destroy (socket s)) (idCounter s) (currentMessageBuffer s)
            (onceOnLineReceived s) (outputChannel s) (promises s).

(** [handleResponse(message)]. *)
Definition handleResponse (s : Session) (message : JSString) : Session :=
  if negb (endsWith message LF) then
    mkSession (socket s) (idCounter s) (currentMessageBuffer s ++ message)
              (onceOnLineReceived s) (outputChannel s) (promises s)
  else
    let message := currentMessageBuffer s ++ message in
    mkSession (socket s) (idCounter s) []
              None
              (outputChannel s ++ [LogReceived message])
              (callWaiter (onceOnLineReceived s) message (promises s)).

(** [sendCommand(command)]; [command] stands for
    [JSON.stringify(command)]. *)
Definition sendCommand (s : Session) (command : JSString) : Session :=
  mkSession (socket_write (socket s) (command ++ [LF])) (idCounter s)
            (currentMessageBuffer s) (onceOnLineReceived s)
            (outputChannel s ++ [LogSending command]) (promises s).

(** [awaitResponse()]: a new pending promise whose [resolve] replaces
    whatever [onceOnLineReceived] held.  Returns the promise. *)
Definition awaitResponse (s : Session) : Session * nat :=
  let p := length (promises s) in
  (mkSession (socket s) (idCounter s) (currentMessageBuffer s)
             (Some p) (outputChannel s) (promises s ++ [Pending]), p).

(** [sendCommandWithResponse(command)] up to its [await]: the promise it
    waits on is returned. *)
Definition sendCommandWithResponse (s : Session) (command : JSString)
    : Session * nat :=
  let '(s1, response) := awaitResponse s in
  (sendCommand s1 command, response).

(** The future [sendCommandWithResponse] returns.  It is the promise of
    an [async] function that awaits [response] and then returns
    [JSON.parse] of the line: it is pending as long as [response] is,
    fulfilled when the line parses and rejected with the parser's
    [SyntaxError] when it does not. *)
Inductive FutureState (Target : Type) : Type :=
| FPending
| FFulfilled (value : Target)
| FRejected (reason : JSString).
Arguments FPending {Target}.
Arguments FFulfilled {Target} value.
Arguments FRejected {Target} reason.

Definition futureState {Target : Type} (JSON_parse : JSString -> Target + JSString)
    (s : Session) (response : nat) : FutureState Target :=
  match promises s !! response with
  | Some (Fulfilled line) =>
      match JSON_parse line with
      | inl v => FFulfilled v
      | inr syntaxError => FRejected syntaxError
      end
  | Some (Rejected reason) => FRejected reason
  | _ => FPending
  end.

(** The socket's ['error'] event.  The handler the constructor installs
    appends a line to the output channel and does nothing else.  A
    [net.Socket] emits ['error'] while it destroys itself, so the socket is
    destroyed from then on. *)
Definition onSocketError (s : Session) (message : JSString) : Session :=
  mkSession (socket_destroy (socket s)) (idCounter s) (currentMessageBuffer s)
            (onceOnLineReceived s)
            (outputChannel s ++ [LogServerError message]) (promises s).

(** The socket's ['data'] event, handled by
    [str => this.handleResponse(String(str))]; [chunk] is the string
    [String(str)], whose decoding from the bytes of the buffer is
    [Transport.onData].  A destroyed socket emits no ['data'] event, so
    nothing is delivered then. *)
Definition onSocketData (s : Session) (chunk : JSString) : Session :=
  if destroyed (socket s) then s else handleResponse s chunk.

(** What can happen to a session, in any order: events of its socket and
    calls of its methods. *)
Inductive Event : Type :=
| SocketData (chunk : JSString)
| SocketError (message : JSString)
| CallDestroy
| CallSendCommand (command : JSString)
| CallAwaitResponse
| CallSendCommandWithResponse (command : JSString).

Definition step (s : Session) (e : Event) : Session :=
  match e with
  | SocketData chunk => onSocketData s chunk
  | SocketError message => onSocketError s message
  | CallDestroy => destroy s
  | CallSendCommand command => sendCommand s command
  | CallAwaitResponse => fst (awaitResponse s)
  | CallSendCommandWithResponse command => fst (sendCommandWithResponse s command)
  end.

Definition run (s : Session) (trace : list Event) : Session :=
  fold_left step trace s.

(** Feeding received chunks to [handleResponse], one call per chunk. *)
Definition feed (s : Session) (chunks : list JSString) : Session :=
  fold_left handleResponse chunks s.

(** The frames the session has emitted: the messages that got past the
    buffering branch of [handleResponse], in order. *)
Definition emitted (s : Session) : list JSString :=
  omap (fun l => match l with LogReceived m => Some m | _ => None end)
       (outputChannel s).

(** A frame of the wire protocol: text without a line feed, followed by
    one line feed. *)
Definition isFrame (f : JSString) : Prop :=
  exists body, f = body ++ [LF] /\ LF ∉ body.

(** [chunkss] splits the frames one by one: the chunks of a frame
    concatenate to it. *)
Definition splitsEachFrame (frames : list JSString)
    (chunkss : list (list JSString)) : Prop :=
  Forall2 (fun f chunks => concat chunks = f) frames chunkss.

(** The waiter, if there is one, belongs to a promise that is still
    pending. *)
Definition waiterPending (s : Session) : Prop :=
  forall p, onceOnLineReceived s = Some p -> promises s !! p = Some Pending.


(** The promise [p] is pending and its [resolve] is no longer the
    waiter. *)
Definition droppedPending (p : nat) (s : Session) : Prop :=
  promises s !! p = Some Pending /\ onceOnLineReceived s <> Some p.

End ServerSession.

(* ===================================================================== *)
(** * From the bytes of the socket to strings                             *)
(* ===================================================================== *)

Module Utf8.

(** The socket has no encoding set, so a ['data'] event carries a
    [Buffer], and the handler turns it into a string with [String(str)]:
    the bytes of that one buffer decoded as UTF-8, where an ill-formed or
    cut-off sequence gives U+FFFD.  Bytes are numbers below 256.  The
    decoder is the one of the Encoding Standard, with the masks and shifts
    written as the subtractions and multiplications they are on the byte
    ranges tested. *)











End Utf8.

Module Transport.

Import ServerSession Utf8.





End Transport.


(* ===================================================================== *)
(** * Location reconciliation in [retrieveSlice]                          *)
(* ===================================================================== *)

Module Slice.

(** Node identifiers are opaque keys; flowR uses strings. *)
Definition NodeId : Type := JSString.

Record SourcePosition : Type := mkPosition {
  line : Z;
  column : Z
}.

Record SourceRange : Type := mkRange {
  start : SourcePosition;
  end_ : SourcePosition
}.

#[local] Set Warnings "-register-all".

(** A node of the normalized AST, as far as [retrieveSlice] looks at it:
    [info.id], the optional [location], and the child nodes. *)
Inductive RNode : Type :=
| mkRNode (id : NodeId) (location : option SourceRange) (children : list RNode).

Definition info_id (n : RNode) : NodeId :=
  match n with mkRNode id _ _ => id end.

Definition location (n : RNode) : option SourceRange :=
  match n with mkRNode _ l _ => l end.

Definition children (n : RNode) : list RNode :=
  match n with mkRNode _ _ c => c end.

(** The nodes of a tree, parents before their children, children from
    left to right. *)
Fixpoint nodes (n : RNode) : list RNode :=
  match n with
  | mkRNode _ _ c => n :: flat_map nodes c
  end.

(** flowR's [visitAst(ast, onVisit)] with a callback that never asks to
    skip a subtree: the callback runs once on every node, in the order of
    [nodes]. *)
Definition visitAst {St : Type} (ast : RNode) (onVisit : RNode -> St -> St)
    (st : St) : St :=
  fold_left (fun st n => onVisit n st) (nodes ast) st.

(** Lines 87-92: the map from identifier to location, filled by the
    visitor [n => { if(n.location) idToLocation.set(n.info.id, n.location) }]. *)
Definition idToLocation (ast : RNode) : gmap NodeId SourceRange :=
  visitAst ast
    (fun n m => match location n with
                | Some l => <[info_id n := l]> m
                | None => m
                end)
    ∅.

(** [isNotUndefined]. *)
Definition isNotUndefined {A : Type} (x : option A) : bool :=
  match x with Some _ => true | None => false end.

(** The comparator of line 103:
    [a.location.start.line - b.location.start.line
     || a.location.start.column - b.location.start.column]. *)
Definition compareStart (a b : NodeId * SourceRange) : Z :=
  let d := (line (start (snd a)) - line (start (snd b)))%Z in
  if (d =? 0)%Z then (column (start (snd a)) - column (start (snd b)))%Z else d.

(** [Array.prototype.sort(comparefn)]: a stable sort that puts [a] before
    [b] when [comparefn(a, b) <= 0].  Modelled by insertion from the right,
    which yields the one stable sorted arrangement. *)
Fixpoint sortInsert {A : Type} (comparefn : A -> A -> Z) (x : A) (l : list A) : list A :=
  match l with
  | [] => [x]
  | y :: tl =>
      if (comparefn x y <=? 0)%Z then x :: l else y :: sortInsert comparefn x tl
  end.

Definition arraySort {A : Type} (comparefn : A -> A -> Z) (l : list A) : list A :=
  fold_right (sortInsert comparefn) [] l.

(** The cast [as { id: NodeId, location: SourceRange }[]] after the
    filter: every element that is left has a location. *)
Definition withLocation (e : NodeId * option SourceRange)
    : option (NodeId * SourceRange) :=
  match snd e with
  | Some l => Some (fst e, l)
  | None => None
  end.

(** Lines 100-105: [sliceElements] from the location map and the slice
    result [[...sliceResponse.results.slice.result]]. *)
Definition sliceElementsOf (M : gmap NodeId SourceRange) (result : list NodeId)
    : list (NodeId * SourceRange) :=
  let mapped := List.map (fun id => (id, M !! id)) result in
  let filtered := List.filter (fun e => isNotUndefined (snd e)) mapped in
  arraySort compareStart (omap withLocation filtered).

(** The reconciliation of [retrieveSlice]: from the analysis response's
    AST and the slice response's result to the elements handed to
    [createDiagnostics]. *)
Definition retrieveSliceElements (ast : RNode) (result : list NodeId)
    : list (NodeId * SourceRange) :=
  sliceElementsOf (idToLocation ast) result.

(** Ascending order by (start line, start column). *)
Definition startLe (a b : NodeId * SourceRange) : Prop :=
  (line (start (snd a)) < line (start (snd b))
   \/ (line (start (snd a)) = line (start (snd b))
       /\ column (start (snd a)) <= column (start (snd b))))%Z.

End Slice.

(* ===================================================================== *)
(** * The module-level session handle ([src/extension.ts])                *)
(* ===================================================================== *)

Module Extension.

(** What [flowrSession] can hold has a [destroy] method; this is the
    interface shared by the internal and the server session. *)
Class Destroyable (S : Type) : Type := destroy : S -> S.

#[global] Instance ServerSession_Destroyable : Destroyable ServerSession.Session :=
  ServerSession.destroy.

(** The session objects allocated so far, and the variable [flowrSession],
    which refers to one of them or is [undefined]. *)
Record Handle (S : Type) : Type := mkHandle {
  sessions : list S;
  flowrSession : option nat
}.
Arguments mkHandle {S} sessions flowrSession.
Arguments sessions {S} _.
Arguments flowrSession {S} _.

(** [destroySession()]:
    [flowrSession?.destroy(); flowrSession = undefined]. *)
Definition destroySession {S : Type} `{Destroyable S} (h : Handle S) : Handle S :=
  match flowrSession h with
  | Some r => mkHandle (alter destroy r (sessions h)) None
  | None => mkHandle (sessions h) None
  end.

(** [establishServerSession()], without the handshake that follows:
    [destroySession(); flowrSession = new FlowrServerSession(...)]. *)
Definition establishServerSession (h : Handle ServerSession.Session)
    : Handle ServerSession.Session :=
  let h1 := destroySession h in
  mkHandle (sessions h1 ++ [ServerSession.newSession]) (Some (length (sessions h1))).

(** The connection of the session object [r] is released: its socket is
    destroyed. *)
Definition released (h : Handle ServerSession.Session) (r : nat) : Prop :=
  exists s, sessions h !! r = Some s
            /\ ServerSession.destroyed (ServerSession.socket s) = true.

End Extension.

(* ===================================================================== *)
(** * The ring buffer of the dependency view's cache                      *)
(* ===================================================================== *)

Module Rotary.

(** Modelled from the spec: the class [RotaryBuffer] of the extension's
    [utils] module, which is not among the sources.  The specification
    describes it as a fixed-capacity ring buffer "implemented via index
    arithmetic over a fixed array", where [push(entry)] appends, "the
    oldest entry overwritten when full", and [get(predicate)] "returns the
    most-recently-pushed entry matching predicate, else undefined", with
    "no LRU promotion on hit".  The array is a list of optional entries of
    the length given to the constructor; [index] is the slot the next push
    writes. *)
Record RotaryBuffer (A : Type) : Type := mkRotary {
  slots : list (option A);
  index : nat
}.
Arguments mkRotary {A} slots index.
Arguments slots {A} _.
Arguments index {A} _.

(** Modelled from the spec: [new RotaryBuffer(capacity)], all slots
    empty. *)
Definition create {A : Type} (capacity : nat) : RotaryBuffer A :=
  mkRotary (replicate capacity None) 0.

Definition capacity {A : Type} (b : RotaryBuffer A) : nat := length (slots b).

(** Modelled from the spec: [push(entry)] writes the slot at [index],
    which holds the oldest entry once the buffer is full, and advances
    [index] modulo the capacity. *)
Definition push {A : Type} (b : RotaryBuffer A) (entry : A) : RotaryBuffer A :=
  mkRotary (<[index b := Some entry]> (slots b))
           ((index b + 1) mod length (slots b)).

(** The slots in the order in which pushes will overwrite them: from
    [index] on, then the slots before it. *)
Definition rotation {A : Type} (b : RotaryBuffer A) : list (option A) :=
  drop (index b) (slots b) ++ take (index b) (slots b).

(** The entries the buffer holds, oldest first. *)
Definition entries {A : Type} (b : RotaryBuffer A) : list A :=
  omap id (rotation b).

(** Modelled from the spec: [get(predicate)], the most recently pushed
    entry that satisfies the predicate; the buffer is left as it is. *)
Definition get {A : Type} (b : RotaryBuffer A) (predicate : A -> bool) : option A :=
  List.find predicate (rev (entries b)).

Definition pushAll {A : Type} (b : RotaryBuffer A) (l : list A) : RotaryBuffer A :=
  fold_left push l b.

End Rotary.

(* ===================================================================== *)
(** * The dependency view: [refresh]                                      *)
(* ===================================================================== *)

Module DependencyView.

Import Rotary.

Record DependencyInfo : Type := mkDependencyInfo {
  nodeId : JSString;
  functionName : JSString;
  name : JSString
}.

Record DependenciesQueryResult : Type := mkDependencies {
  libraries : list DependencyInfo;
  readData : list DependencyInfo;
  sourcedFiles : list DependencyInfo;
  writtenData : list DependencyInfo;
  dependenciesTiming : Z
}.

Record LocationMapQueryResult : Type := mkLocationMap {
  map : list (JSString * (Z * Z * Z * Z));
  locationMapTiming : Z
}.

Definition emptyDependencies : DependenciesQueryResult :=
  mkDependencies [] [] [] [] (-1).

Definition emptyLocationMap : LocationMapQueryResult :=
  mkLocationMap [] (-1).

(** The value [{ dep, loc }] that [getDependenciesForActiveFile] returns
    and that the cache stores next to the fingerprint. *)
Record Bundle : Type := mkBundle {
  dep : DependenciesQueryResult;
  loc : LocationMapQueryResult
}.

(** The lines the view appends to the output channel. *)
Inductive LogLine : Type :=
| LogRefreshing
| LogUsingCached (depTiming locTiming : Z)
| LogCouldNotRetrieve
| LogRefreshed (depTiming locTiming : Z)
| LogError (e : JSString).

(** The fields of [FlowrDependencyTreeView] that [refresh] reads and
    writes.  [fired] counts [_onDidChangeTreeData.fire] and
    [revealsScheduled] the [setTimeout(() => void this.reveal(), 0)] of the
    [finally] block.  Two counters are added for the statements about the
    view: [cacheLookups] counts the calls of [textBuffer.get], and
    [roundTrips] counts how often [getDependenciesForActiveFile] turns to
    the session ([getFlowrSession()] followed by [retrieveQuery]). *)
Record View : Type := mkView {
  working : bool;
  lastText : JSString;
  textBuffer : RotaryBuffer (JSString * Bundle);
  activeDependencies : DependenciesQueryResult;
  locationMap : LocationMapQueryResult;
  output : list LogLine;
  fired : nat;
  revealsScheduled : nat;
  cacheLookups : nat;
  roundTrips : nat
}.

(** The view after its field initialisers ran. *)
Definition newView : View :=
  mkView false [] (create 5) emptyDependencies emptyLocationMap [] 0 0 0 0.

(** [vscode.window.activeTextEditor], as far as [refresh] reads it. *)
Record Editor : Type := mkEditor {
  languageId : JSString;
  getText : JSString
}.

(** What the remote query does: [retrieveQuery] answers with a result,
    answers with its error flag set, or the chain
    [getFlowrSession()] / [retrieveQuery] rejects. *)
Inductive QueryOutcome : Type :=
| QueryOk (res : Bundle)
| QueryFailed
| QueryRejected (e : JSString).

(** Where a call of [refresh] returned without waiting for a query. *)
Inductive Exit : Type :=
| AtWorkingGuard
| AtLanguageGuard
| AtLastText
| AfterCacheHit.

(** A call of [refresh] suspended at [await vscode.window.withProgress]:
    the fingerprint [text] it keeps, and whether
    [getDependenciesForActiveFile] issued the remote query. *)
Record Suspended : Type := mkSuspended {
  suspendedText : JSString;
  queryIssued : bool
}.

Inductive Entered : Type :=
| Returned (at_ : Exit)
| Awaiting (k : Suspended).

(** The [finally] block. *)
Definition finallyBlock (v : View) : View :=
  mkView false (lastText v) (textBuffer v) (activeDependencies v)
         (locationMap v) (output v) (fired v) (S (revealsScheduled v))
         (cacheLookups v) (roundTrips v).

(** Lines 109-120: the guards.  Either the call returns, or it goes on
    with the fingerprint, which [lastText] then already holds. *)
Definition refreshGuards (activeTextEditor : option Editor) (v : View)
    : View * (Exit + JSString) :=
  if working v then (v, inl AtWorkingGuard)
  else
    match activeTextEditor with
    | None => (v, inl AtLanguageGuard)
    | Some ed =>
        if negb (bool_decide (languageId ed = js "r")) then (v, inl AtLanguageGuard)
        else
          let text := Fingerprint.textFingerprint (getText ed) in
          if bool_decide (text = lastText v) then (v, inl AtLastText)
          else
            (mkView (working v) text (textBuffer v) (activeDependencies v)
                    (locationMap v) (output v) (fired v) (revealsScheduled v)
                    (cacheLookups v) (roundTrips v),
             inr text)
    end.

(** [getDependenciesForActiveFile], up to its first [await]: without an
    active editor it answers with the empty results, otherwise it turns to
    the session.  [withProgress] runs its task in the turn of the call, so
    the editor is the one the guards saw. *)
Definition getDependenciesStart (activeTextEditor : option Editor) (v : View)
    : View * bool :=
  match activeTextEditor with
  | None => (v, false)
  | Some _ =>
      (mkView (working v) (lastText v) (textBuffer v) (activeDependencies v)
              (locationMap v) (output v) (fired v) (revealsScheduled v)
              (cacheLookups v) (S (roundTrips v)),
       true)
  end.

(** What [getDependenciesForActiveFile] settles with: a bundle, the
    string ['error'], or a rejection. *)
Inductive Dependencies : Type :=
| DepBundle (res : Bundle)
| DepError
| DepRejected (e : JSString).

(** [getDependenciesForActiveFile], from the answer of the query on. *)
Definition getDependenciesFinish (issued : bool) (outcome : QueryOutcome) (v : View)
    : View * Dependencies :=
  let log l :=
    mkView (working v) (lastText v) (textBuffer v) (activeDependencies v)
           (locationMap v) (output v ++ [l]) (fired v) (revealsScheduled v)
           (cacheLookups v) (roundTrips v) in
  if issued then
    match outcome with
    | QueryFailed => (log LogCouldNotRetrieve, DepError)
    | QueryOk res =>
        (log (LogRefreshed (dependenciesTiming (dep res)) (locationMapTiming (loc res))),
         DepBundle res)
    | QueryRejected e => (v, DepRejected e)
    end
  else (v, DepBundle (mkBundle emptyDependencies emptyLocationMap)).

(** Lines 121-132: from ['Refreshing dependencies'] to the [await].  A
    cache hit runs to the end, [finally] included. *)
Definition refreshBody (activeTextEditor : option Editor) (text : JSString) (v : View)
    : View * Entered :=
  let v1 :=
    mkView true (lastText v) (textBuffer v) (activeDependencies v)
           (locationMap v) (output v ++ [LogRefreshing]) (fired v)
           (revealsScheduled v) (S (cacheLookups v)) (roundTrips v) in
  match get (textBuffer v1) (fun e => bool_decide (fst e = text)) with
  | Some has =>
      (finallyBlock
         (mkView (working v1) (lastText v1) (textBuffer v1)
                 (dep (snd has)) (loc (snd has))
                 (output v1 ++ [LogUsingCached (dependenciesTiming (dep (snd has)))
                                               (locationMapTiming (loc (snd has)))])
                 (S (fired v1)) (revealsScheduled v1)
                 (cacheLookups v1) (roundTrips v1)),
       Returned AfterCacheHit)
  | None =>
      let '(v2, issued) := getDependenciesStart activeTextEditor v1 in
      (v2, Awaiting (mkSuspended text issued))
  end.

(** A call of [refresh], up to the point where it returns or suspends. *)
Definition refreshEnter (activeTextEditor : option Editor) (v : View)
    : View * Entered :=
  match refreshGuards activeTextEditor v with
  | (v1, inl e) => (v1, Returned e)
  | (v1, inr text) => refreshBody activeTextEditor text v1
  end.

(** Lines 133-150: what runs when the query settled, the [then]
    callback on an answer and the [catch] callback on a rejection.
    [keepOnError] is the setting [dependencyView.keepOnError] read by the
    [then] callback.  The [catch] callback turns every rejection into a
    log line, so the promise given to [withProgress] is fulfilled and the
    outer [catch] block of [refresh] is not entered. *)
Definition refreshSettle (keepOnError : bool) (k : Suspended)
    (outcome : QueryOutcome) (v : View) : View :=
  let '(v1, res) := getDependenciesFinish (queryIssued k) outcome v in
  match res with
  | DepError =>
      if keepOnError then v1
      else
        mkView (working v1) (lastText v1) (textBuffer v1)
               emptyDependencies emptyLocationMap (output v1)
               (S (fired v1)) (revealsScheduled v1)
               (cacheLookups v1) (roundTrips v1)
  | DepBundle r =>
      mkView (working v1) (lastText v1)
             (push (textBuffer v1) (suspendedText k, r))
             (dep r) (loc r) (output v1)
             (S (fired v1)) (revealsScheduled v1)
             (cacheLookups v1) (roundTrips v1)
  | DepRejected e =>
      mkView (working v1) (lastText v1) (textBuffer v1)
             (activeDependencies v1) (locationMap v1)
             (output v1 ++ [LogError e])
             (fired v1) (revealsScheduled v1)
             (cacheLookups v1) (roundTrips v1)
  end.

(** The rest of a suspended call: the callbacks, then, when
    [await vscode.window.withProgress] returns, the [finally] block. *)
Definition refreshResume (keepOnError : bool) (k : Suspended)
    (outcome : QueryOutcome) (v : View) : View :=
  finallyBlock (refreshSettle keepOnError k outcome v).

(** A call of [refresh] that runs to its end before anything else
    happens; [outcome] is what the remote query does if it is issued. *)
Definition refresh (activeTextEditor : option Editor) (keepOnError : bool)
    (outcome : QueryOutcome) (v : View) : View :=
  match refreshEnter activeTextEditor v with
  | (v1, Returned _) => v1
  | (v1, Awaiting k) => refreshResume keepOnError k outcome v1
  end.

(** ** Interleaved calls

    The event loop runs one piece of code at a time.  A call of [refresh]
    runs until it returns or suspends at its [await].  When the query of a
    suspended call settles, its callbacks run; when after that the [await]
    returns, its [finally] block runs and the call is over.  [inFlight]
    holds the suspended calls, each with the flag whether its callbacks
    have run. *)
Record Loop : Type := mkLoop {
  view : View;
  inFlight : list (Suspended * bool)
}.

Inductive ViewEvent : Type :=
| Trigger (activeTextEditor : option Editor)
| Settle (i : nat) (keepOnError : bool) (outcome : QueryOutcome)
| Return (i : nat).

Definition loopStep (l : Loop) (e : ViewEvent) : Loop :=
  match e with
  | Trigger ed =>
      match refreshEnter ed (view l) with
      | (v1, Returned _) => mkLoop v1 (inFlight l)
      | (v1, Awaiting k) => mkLoop v1 (inFlight l ++ [(k, false)])
      end
  | Settle i keepOnError outcome =>
      match inFlight l !! i with
      | Some (k, false) =>
          mkLoop (refreshSettle keepOnError k outcome (view l))
                 (<[i := (k, true)]> (inFlight l))
      | _ => l
      end
  | Return i =>
      match inFlight l !! i with
      | Some (k, true) => mkLoop (finallyBlock (view l)) (delete i (inFlight l))
      | _ => l
      end
  end.

Definition loopRun (l : Loop) (trace : list ViewEvent) : Loop :=
  fold_left loopStep trace l.

Definition newLoop : Loop := mkLoop newView [].

(** [working] is set exactly while one call is suspended. *)
Definition guarded (l : Loop) : Prop :=
  length (inFlight l) = if working (view l) then 1 else 0.

End DependencyView.

(* ===================================================================== *)
(** * The session on the wire: requests and [retrieveSlice]               *)
(* ===================================================================== *)

Module Wire.

Import ServerSession Slice.

(** The commands a trace hands to [sendCommand], directly or through
    [sendCommandWithResponse], in order. *)
Definition commandsOf (trace : list Event) : list JSString :=
  omap (fun e => match e with
                 | CallSendCommand c => Some c
                 | CallSendCommandWithResponse c => Some c
                 | _ => None
                 end) trace.

(** Whether an event closes the socket. *)
Definition closes (e : Event) : bool :=
  match e with
  | CallDestroy | SocketError _ => true
  | _ => false
  end.

Definition isFulfilled (st : PromiseState) : bool :=
  match st with Fulfilled _ => true | _ => false end.

(** What [await response] yields once the promise is fulfilled. *)
Definition awaited (s : Session) (p : nat) : option JSString :=
  match promises s !! p with
  | Some (Fulfilled line) => Some line
  | _ => None
  end.

(** The two requests of [retrieveSlice].  The field [id] is
    [String(this.idCounter++)]; the number is kept, its decimal string
    being determined by it.  [format] and [filetoken] are constants of the
    source and are not carried. *)
Inductive Request : Type :=
| RequestFileAnalysis (id : nat) (filename content : JSString)
| RequestSlice (id : nat) (criterion : JSString).

(** The part of a slice response that [retrieveSlice] reads:
    [results.slice.result] and [results.reconstruct.code]. *)
Record SliceResponse : Type := mkSliceResponse {
  sliceResult : list NodeId;
  reconstructCode : JSString
}.

(** [this.idCounter++]. *)
Definition takeId (s : Session) : Session * nat :=
  (mkSession (socket s) (S (idCounter s)) (currentMessageBuffer s)
             (onceOnLineReceived s) (outputChannel s) (promises s),
   idCounter s).

Section RetrieveSlice.

(** [JSON.stringify] on requests and on the list of identifiers, and
    [JSON.parse] followed by the property accesses of the source on the two
    responses; the accesses throw, and the [async] function rejects, when
    the response does not have the shape ([None]). *)
Variable stringify : Request -> JSString.
Variable stringifyIds : list NodeId -> JSString.
Variable parseAnalysis : JSString -> option RNode.
Variable parseSlice : JSString -> option SliceResponse.

(** Lines 70-84: up to the first [await].  [content] is the text after
    [fixEncoding]. *)
Definition retrieveSliceBegin (filename content : JSString) (s : Session)
    : Session * nat :=
  let '(s1, id) := takeId s in
  sendCommandWithResponse s1 (stringify (RequestFileAnalysis id filename content)).

(** Lines 77-99: from the line that answers the first request to the
    second [await].  [criterion] is [toSlicingCriterion(pos)]. *)
Definition retrieveSliceAnalysed (criterion line : JSString) (s : Session)
    : option (Session * nat * gmap NodeId SourceRange) :=
  match parseAnalysis line with
  | None => None
  | Some ast =>
      let '(s1, id) := takeId s in
      let '(s2, p) := sendCommandWithResponse s1 (stringify (RequestSlice id criterion)) in
      Some (s2, p, idToLocation ast)
  end.

(** Lines 94-109: from the line that answers the second request to the
    end.  The result is the elements handed to [createDiagnostics] and the
    reconstructed code the function returns. *)
Definition retrieveSliceFinish (M : gmap NodeId SourceRange) (line : JSString)
    (s : Session) : option (Session * list (NodeId * SourceRange) * JSString) :=
  match parseSlice line with
  | None => None
  | Some r =>
      Some (mkSession (socket s) (idCounter s) (currentMessageBuffer s)
                      (onceOnLineReceived s)
                      (outputChannel s ++ [LogSlice (stringifyIds (sliceResult r))])
                      (promises s),
            sliceElementsOf M (sliceResult r),
            reconstructCode r)
  end.

(** A call of [retrieveSlice] with nothing else going on: the server
    answers the first request with the chunks [answer1] and the second
    with the chunks [answer2].  [None] when an [await] does not get its
    line or a response does not parse. *)
Definition retrieveSliceAlone (filename content criterion : JSString)
    (answer1 answer2 : list JSString) (s : Session)
    : option (Session * list (NodeId * SourceRange) * JSString) :=
  let '(s1, p1) := retrieveSliceBegin filename content s in
  let s2 := run s1 (List.map SocketData answer1) in
  match awaited s2 p1 with
  | None => None
  | Some line1 =>
      match retrieveSliceAnalysed criterion line1 s2 with
      | None => None
      | Some (s3, p2, M) =>
          let s4 := run s3 (List.map SocketData answer2) in
          match awaited s4 p2 with
          | None => None
          | Some line2 => retrieveSliceFinish M line2 s4
          end
      end
  end.

End RetrieveSlice.

(** What is done to a session from outside: the events of its socket and
    the calls of [destroy], [sendCommand], [awaitResponse] and
    [sendCommandWithResponse], and calls of [retrieveSlice].  A call of
    [retrieveSlice] runs up to its first [await] (lines 70-84, with
    [content] the text after [fixEncoding]); the rest of it runs only once
    the promise it awaits is fulfilled.  [handleResponse] called directly,
    rather than by the ['data'] handler, is not among these. *)
Inductive Call : Type :=
| SessionEvent (e : Event)
| CallRetrieveSlice (filename content : JSString).

Definition call (stringify : Request -> JSString) (s : Session) (c : Call)
    : Session :=
  match c with
  | SessionEvent e => step s e
  | CallRetrieveSlice filename content =>
      fst (retrieveSliceBegin stringify filename content s)
  end.

Definition calls (stringify : Request -> JSString) (s : Session)
    (trace : list Call) : Session :=
  fold_left (call stringify) trace s.

(** The number of calls of [retrieveSlice] in a trace. *)
Definition retrieveSliceCalls (trace : list Call) : nat :=
  length (List.filter
            (fun c => match c with CallRetrieveSlice _ _ => true | _ => false end)
            trace).

(** A [JSON.parse] for examples: it accepts the line [{}] and throws on
    every other line. *)
Definition parseEmptyObject (line : JSString) : unit + JSString :=
  if bool_decide (line = js "{}" ++ [LF]) then inl tt else inr (js "SyntaxError").

(** Elements that start at a given position. *)
Definition startsAt (l c : Z) (e : NodeId * SourceRange) : bool :=
  (line (start (snd e)) =? l)%Z && (column (start (snd e)) =? c)%Z.

(** The located nodes with identifier [id], in the order of the visit. *)
Definition locationsOf (id : NodeId) (ast : RNode) : list SourceRange :=
  omap (fun n => if bool_decide (info_id n = id) then location n else None)
       (nodes ast).

End Wire.

(* ===================================================================== *)
(** * The commands that open and close sessions ([src/extension.ts])      *)
(* ===================================================================== *)

Module Lifecycle.

Import ServerSession Extension.

(** What reaches the session handle: the command
    [vscode-flowr.session.connect], the command
    [vscode-flowr.session.disconnect], the disposal of the extension (the
    [Disposable] pushed to the subscriptions, and [SIGINT]), and anything
    that happens to one of the session objects.  The internal session is
    not among the sources; the handle holds server sessions only. *)
Inductive Command : Type :=
| Connect
| Disconnect
| Deactivate
| OnSession (r : nat) (e : Event).

(** [Disconnect] runs [destroySession()] under the test
    [flowrSession instanceof FlowrServerSession], which holds exactly when
    the variable is defined. *)
Definition exec (h : Handle Session) (c : Command) : Handle Session :=
  match c with
  | Connect => establishServerSession h
  | Disconnect =>
      match flowrSession h with
      | Some _ => destroySession h
      | None => h
      end
  | Deactivate => destroySession h
  | OnSession r e => mkHandle (alter (fun s => step s e) r (sessions h)) (flowrSession h)
  end.

Definition execAll (h : Handle Session) (cs : list Command) : Handle Session :=
  fold_left exec cs h.

(** The handle when the extension is loaded. *)
Definition noSession : Handle Session := mkHandle [] None.

(** [flowrSession] refers to a session object, and every other session
    object has a destroyed socket. *)
Definition onlyCurrentOpen (h : Handle Session) : Prop :=
  (forall r, flowrSession h = Some r -> r < length (sessions h))
  /\ (forall i s, sessions h !! i = Some s -> flowrSession h <> Some i ->
                  destroyed (socket s) = true).

End Lifecycle.

(* ===================================================================== *)
(** * The tree of the dependency view                                     *)
(* ===================================================================== *)

Module Tree.

Section Tree.

(** The kind of dependency ([LibraryInfo], [ReadInfo], ...), with the
    properties the view reads: the name picked by [getName],
    [functionName], [lexemeOfArgument] and [nodeId]. *)
Variable E : Type.
Variable getName : E -> JSString.
Variable functionName : E -> JSString.
Variable lexemeOfArgument : E -> option JSString.
Variable nodeId : E -> JSString.

(** A [SourceRange] of the location map: start line, start column, end
    line, end column. *)
Definition Range : Type := (Z * Z * Z * Z)%type.

#[local] Set Warnings "-register-all".

(** A [Dependency], with the constructor parameters the tree is built
    from; [loc] is what the constructor looks up, and [folder] says that
    the icon is [ThemeIcon.Folder].  The other icons, the texts
    [description] and [tooltip] and the parent reference are not
    carried. *)
Inductive Dependency : Type :=
| mkDependency (label : JSString) (root : bool) (folder : bool)
               (info : option E) (loc : option Range)
               (children : list Dependency).

Definition label (d : Dependency) : JSString :=
  match d with mkDependency l _ _ _ _ _ => l end.

Definition info (d : Dependency) : option E :=
  match d with mkDependency _ _ _ i _ _ => i end.

Definition getLocation (d : Dependency) : option Range :=
  match d with mkDependency _ _ _ _ l _ => l end.

Definition children (d : Dependency) : list Dependency :=
  match d with mkDependency _ _ _ _ _ c => c end.

(** [collapsibleState ??= children.length === 0 ? None : Collapsed];
    [true] stands for [Collapsed]. *)
Definition collapsed (d : Dependency) : bool :=
  match children d with [] => false | _ => true end.

(** [if(!root && info) this.contextValue = 'dependency']. *)
Definition isContextDependency (d : Dependency) : bool :=
  match d with mkDependency _ r _ i _ _ => negb r && bool_decide (is_Some i) end.

(** The constructor called with [info]: [loc] is
    [locationMap?.map[info.nodeId]]. *)
Definition leaf (locationMap : gmap JSString Range) (l : JSString) (e : E)
    : Dependency :=
  mkDependency l false false (Some e) (locationMap !! nodeId e) [].

(** A value is truthy as [lexemeOfArgument] when it is a string that is
    not empty. *)
Definition truthy (x : option JSString) : bool :=
  match x with
  | Some (_ :: _) => true
  | _ => false
  end.

(** [unknownGuardedName]. *)
Definition unknownGuardedName (e : E) : JSString :=
  let name := getName e in
  if bool_decide (name = js "unknown") && truthy (lexemeOfArgument e)
  then name ++ js ": " ++ default [] (lexemeOfArgument e)
  else name.

(** The key of the grouping: [getName(e) + ' (' + e.functionName + ')']. *)
Definition groupKey (e : E) : JSString :=
  getName e ++ js " (" ++ functionName e ++ js ")".

(** One round of the loop over [elements] on the [Map] [grouped], whose
    entries are kept in the order in which the keys were first set: a new
    key gets the list with [e], a known key gets [e] pushed to its
    list. *)
Fixpoint groupPush (key : JSString) (e : E) (g : list (JSString * list E))
    : list (JSString * list E) :=
  match g with
  | [] => [(key, [e])]
  | (k, es) :: rest =>
      if bool_decide (k = key) then (k, es ++ [e]) :: rest
      else (k, es) :: groupPush key e rest
  end.

Definition grouped (elements : list E) : list (JSString * list E) :=
  fold_left (fun g e => groupPush (groupKey e) e g) elements [].

(** The keys of the elements, each once, in the order in which they first
    occur. *)
Definition firstKeys (elements : list E) : list JSString :=
  fold_left (fun ks e => if bool_decide (groupKey e ∈ ks) then ks else ks ++ [groupKey e])
            elements [].

(** The elements with the key [k], in their order. *)
Definition withKey (k : JSString) (elements : list E) : list E :=
  List.filter (fun e => bool_decide (groupKey e = k)) elements.

(** [makeChildren]: a group of one element becomes that element's node, a
    larger group becomes a folder labelled with the key. *)
Definition makeChildren (locationMap : gmap JSString Range) (elements : list E)
    : list Dependency :=
  List.map (fun entry =>
              match snd entry with
              | [e] => leaf locationMap (unknownGuardedName e) e
              | es =>
                  mkDependency (fst entry) false true None None
                    (List.map (fun e => leaf locationMap (unknownGuardedName e) e) es)
              end)
           (grouped elements).

(** [makeDependency]: the root node of one category. *)
Definition makeDependency (locationMap : gmap JSString Range) (l : JSString)
    (elements : list E) : Dependency :=
  mkDependency l true false None None (makeChildren locationMap elements).

(** The dependencies shown below a node: its own, if it has one, and
    those of its children, from top to bottom. *)
Fixpoint shown (d : Dependency) : list E :=
  match d with
  | mkDependency _ _ _ i _ c =>
      match i with Some e => [e] | None => [] end ++ flat_map shown c
  end.

End Tree.

Arguments mkDependency {E} label root folder info loc children.
Arguments label {E} d.
Arguments info {E} d.
Arguments getLocation {E} d.
Arguments children {E} d.
Arguments collapsed {E} d.
Arguments isContextDependency {E} d.
Arguments shown {E} d.
Arguments groupPush {E} key e g.

End Tree.

(* ===================================================================== *)
(** * What triggers a refresh: [updateConfig] and [dispose]               *)
(* ===================================================================== *)

Module Triggers.

(** The timers and listeners of the view.  Handles are numbers handed out
    in order.  [liveIntervals] holds the [setInterval] timers that were
    not cleared, [liveListeners] the event subscriptions that were not
    disposed; [clearInterval] and [dispose] take a handle out and do
    nothing when it is not there. *)
Record State : Type := mkState {
  activeInterval : option nat;
  activeDisposable : option nat;
  disposables : list nat;
  liveIntervals : gset nat;
  liveListeners : gset nat;
  nextHandle : nat;
  invalidTypes : list JSString
}.

(** The value of [dependencyView.updateType], and what [updateConfig]
    makes of it. *)
Inductive Kind : Type := Never | Interval | OnSave | OnChange | Invalid.

Definition kindOf (updateType : JSString) : Kind :=
  if bool_decide (updateType = js "never") then Never
  else if bool_decide (updateType = js "interval") then Interval
  else if bool_decide (updateType = js "on save") then OnSave
  else if bool_decide (updateType = js "on change") then OnChange
  else Invalid.

(** Lines 56-63: the timer and the listener of the previous setting are
    released and forgotten. *)
Definition releaseActive (st : State) : State :=
  let st1 :=
    match activeInterval st with
    | Some t =>
        mkState None (activeDisposable st) (disposables st)
                (liveIntervals st ∖ {[t]}) (liveListeners st)
                (nextHandle st) (invalidTypes st)
    | None => st
    end in
  match activeDisposable st1 with
  | Some d =>
      mkState (activeInterval st1) None (disposables st1)
              (liveIntervals st1) (liveListeners st1 ∖ {[d]})
              (nextHandle st1) (invalidTypes st1)
  | None => st1
  end.

(** [updateConfig()], with the configured update type. *)
Definition updateConfig (updateType : JSString) (st : State) : State :=
  let st1 := releaseActive st in
  let h := nextHandle st1 in
  match kindOf updateType with
  | Never => st1
  | Interval =>
      mkState (Some h) (activeDisposable st1) (disposables st1)
              (liveIntervals st1 ∪ {[h]}) (liveListeners st1)
              (S h) (invalidTypes st1)
  | OnSave | OnChange =>
      mkState (activeInterval st1) (Some h) (disposables st1)
              (liveIntervals st1) (liveListeners st1 ∪ {[h]})
              (S h) (invalidTypes st1)
  | Invalid =>
      mkState (activeInterval st1) (activeDisposable st1) (disposables st1)
              (liveIntervals st1) (liveListeners st1)
              (nextHandle st1) (invalidTypes st1 ++ [updateType])
  end.

(** [this.disposables.push(listener)]. *)
Definition subscribe (st : State) : State :=
  mkState (activeInterval st) (activeDisposable st)
          (disposables st ++ [nextHandle st])
          (liveIntervals st) (liveListeners st ∪ {[nextHandle st]})
          (S (nextHandle st)) (invalidTypes st).

(** The constructor: [updateConfig()], then the listeners for
    configuration changes and for the change of the active editor.  The
    two start-up timeouts fire once and hold nothing. *)
Definition construct (updateType : JSString) : State :=
  subscribe (subscribe (updateConfig updateType
                          (mkState None None [] ∅ ∅ 0 []))).

(** [dispose()]. *)
Definition dispose (st : State) : State :=
  let listeners := liveListeners st ∖ list_to_set (disposables st) in
  let intervals :=
    match activeInterval st with
    | Some t => liveIntervals st ∖ {[t]}
    | None => liveIntervals st
    end in
  let listeners' :=
    match activeDisposable st with
    | Some d => listeners ∖ {[d]}
    | None => listeners
    end in
  mkState (activeInterval st) (activeDisposable st) (disposables st)
          intervals listeners' (nextHandle st) (invalidTypes st).

(** The view after its construction and a series of configuration
    changes. *)
Definition configured (initial : JSString) (changes : list JSString) : State :=
  fold_left (fun st t => updateConfig t st) changes (construct initial).

Definition ofOption (x : option nat) : gset nat :=
  match x with Some h => {[h]} | None => ∅ end.

(** The live timers and listeners are the ones the fields hold, and at
    most one of [activeInterval] and [activeDisposable] is set. *)
Definition consistent (st : State) : Prop :=
  liveIntervals st = ofOption (activeInterval st)
  /\ liveListeners st = list_to_set (disposables st) ∪ ofOption (activeDisposable st)
  /\ (forall h, h ∈ disposables st -> h < nextHandle st)
  /\ (forall h, activeDisposable st = Some h ->
                h < nextHandle st /\ h ∉ disposables st)
  /\ (activeInterval st = None \/ activeDisposable st = None).

End Triggers.

(* ===================================================================== *)
(** * Frame reassembly                                                    *)
(* ===================================================================== *)

Section Framing.

Import ServerSession Utf8 Transport.

Lemma endsWith_snoc (s : JSString) (c d : N) :
  endsWith (s ++ [d]) c = (d =? c)%N.
Proof.
  induction s as [|x s IH]; [reflexivity|].
  simpl. destruct (s ++ [d]) eqn:E; [by destruct s|]. exact IH.
Qed.

Lemma endsWith_true (s : JSString) (c : N) :
  endsWith s c = true -> exists body, s = body ++ [c].
Proof.
  induction s as [|x s _] using rev_ind; [discriminate|].
  rewrite endsWith_snoc. intros ->%N.eqb_eq. by exists s.
Qed.

Lemma endsWith_false_nil (c : N) : endsWith [] c = false.
Proof. reflexivity. Qed.

(** The two branches of [handleResponse], seen through the buffer and
    the emitted frames. *)
Lemma handleResponse_buffering (s : Session) (m : JSString) :
  endsWith m LF = false ->
  currentMessageBuffer (handleResponse s m) = currentMessageBuffer s ++ m
  /\ emitted (handleResponse s m) = emitted s
  /\ promises (handleResponse s m) = promises s
  /\ onceOnLineReceived (handleResponse s m) = onceOnLineReceived s.
Proof. intros H. unfold handleResponse. by rewrite H. Qed.

Lemma emitted_snoc_received (log : list LogLine) (m : JSString) :
  omap (fun l => match l with LogReceived m => Some m | _ => None end)
       (log ++ [LogReceived m])
  = omap (fun l => match l with LogReceived m => Some m | _ => None end) log ++ [m].
Proof. by rewrite omap_app. Qed.

Lemma handleResponse_emitting (s : Session) (m : JSString) :
  endsWith m LF = true ->
  currentMessageBuffer (handleResponse s m) = []
  /\ emitted (handleResponse s m) = emitted s ++ [currentMessageBuffer s ++ m]
  /\ onceOnLineReceived (handleResponse s m) = None.
Proof.
  intros H. unfold handleResponse. rewrite H. simpl.
  split; [done|]. split; [|done]. apply emitted_snoc_received.
Qed.

(** Whatever the chunks are, no unit is lost or reordered: the emitted
    messages followed by the buffer are the units received so far. *)
Lemma handleResponse_keeps_units (s : Session) (m : JSString) :
  concat (emitted (handleResponse s m)) ++ currentMessageBuffer (handleResponse s m)
  = concat (emitted s) ++ currentMessageBuffer s ++ m.
Proof.
  destruct (endsWith m LF) eqn:H.
  - destruct (handleResponse_emitting s m H) as (-> & -> & _).
    rewrite concat_app. simpl. by rewrite !app_nil_r.
  - by destruct (handleResponse_buffering s m H) as (-> & -> & _).
Qed.

Lemma feed_keeps_units (chunks : list JSString) (s : Session) :
  concat (emitted (feed s chunks)) ++ currentMessageBuffer (feed s chunks)
  = concat (emitted s) ++ currentMessageBuffer s ++ concat chunks.
Proof.
  revert s. induction chunks as [|c cs IH]; intros s.
  { simpl. by rewrite app_nil_r. }
  change (feed s (c :: cs)) with (feed (handleResponse s c) cs).
  rewrite IH, app_assoc, handleResponse_keeps_units. simpl.
  by rewrite <- !app_assoc.
Qed.



Lemma feed_app (s : Session) (c1 c2 : list JSString) :
  feed s (c1 ++ c2) = feed (feed s c1) c2.
Proof. apply fold_left_app. Qed.


Lemma splitsEachFrame_unsplit (frames : list JSString) :
  splitsEachFrame frames (List.map (fun f => [f]) frames).
Proof.
  induction frames as [|f frames IH]; constructor; [|done].
  simpl. apply app_nil_r.
Qed.



























End Framing.

(* ===================================================================== *)
(** * Promises of the session over its lifetime                          *)
(* ===================================================================== *)

Section SessionTraces.

Import ServerSession.

Lemma resolvePromise_lookup_ne (p q : nat) (line : JSString) (ps : list PromiseState) :
  p <> q -> resolvePromise p line ps !! q = ps !! q.
Proof.
  intros Hne. unfold resolvePromise.
  destruct (ps !! p) as [[]|]; try done. by apply list_lookup_insert_ne.
Qed.

Lemma step_waiterPending (s : Session) (e : Event) :
  waiterPending s -> waiterPending (step s e).
Proof.
  intros Hw. destruct e as [chunk|m| |command| |command]; simpl; try exact Hw.
  - unfold onSocketData. destruct (destroyed (socket s)); [exact Hw|].
    unfold handleResponse. destruct (endsWith chunk LF); simpl; [|exact Hw].
    intros p Hp. discriminate Hp.
  - intros p [= <-]. simpl. by rewrite lookup_app_r, Nat.sub_diag.
  - intros p [= <-]. simpl. by rewrite lookup_app_r, Nat.sub_diag.
Qed.

Lemma run_snoc (s : Session) (trace : list Event) (e : Event) :
  run s (trace ++ [e]) = step (run s trace) e.
Proof. unfold run. by rewrite fold_left_app. Qed.

Lemma run_invariant (P : Session -> Prop) (s : Session) (trace : list Event) :
  (forall s e, P s -> P (step s e)) -> P s -> P (run s trace).
Proof.
  intros Hstep. revert s. induction trace as [|e trace IH]; intros s Hs; [done|].
  simpl. apply IH, Hstep, Hs.
Qed.

Lemma newSession_waiterPending : waiterPending newSession.
Proof. intros p Hp. discriminate Hp. Qed.


Lemma step_droppedPending (p : nat) (s : Session) (e : Event) :
  droppedPending p s -> droppedPending p (step s e).
Proof.
  intros [Hp Hw]. unfold droppedPending.
  assert (length (promises s) <> p) as Hlen.
  { apply lookup_lt_Some in Hp. lia. }
  destruct e as [chunk|m| |command| |command]; simpl; try done.
  - unfold onSocketData. destruct (destroyed (socket s)); [done|].
    unfold handleResponse. destruct (endsWith chunk LF); simpl; [|done].
    split; [|done]. unfold callWaiter.
    destruct (onceOnLineReceived s) as [q|]; [|done].
    rewrite resolvePromise_lookup_ne; [done|]. congruence.
  - split; [by apply lookup_app_l_Some|]. congruence.
  - split; [by apply lookup_app_l_Some|]. congruence.
Qed.





(** C8.  When [awaitResponse] registers a new waiter while the waiter of
    an earlier promise is still registered, nothing is logged and the
    earlier promise stays pending whatever happens afterwards: it is never
    fulfilled and never rejected. *)
Theorem awaitResponse_drops_previous_waiter
    (before after : list Event) (p : nat) :
  onceOnLineReceived (run newSession before) = Some p ->
  let s := run newSession before in
  let s1 := fst (awaitResponse s) in
  let q := snd (awaitResponse s) in
  q <> p
  /\ onceOnLineReceived s1 = Some q
  /\ outputChannel s1 = outputChannel s
  /\ promises s !! p = Some Pending
  /\ promises (run s1 after) !! p = Some Pending.
Proof.
  intros Hw s s1 q.
  assert (waiterPending s) as Hwp.
  { apply run_invariant; [apply step_waiterPending|apply newSession_waiterPending]. }
  pose proof (Hwp p Hw) as Hp.
  assert (q <> p) as Hq.
  { subst q. simpl. apply lookup_lt_Some in Hp. lia. }
  repeat split; try done.
  assert (droppedPending p (run s1 after)) as [H _]; [|exact H].
  apply run_invariant; [apply step_droppedPending|].
  split; [by apply lookup_app_l_Some|]. simpl. intros [= E]. by apply Hq.
Qed.

(** Two requests without an answer in between: the line that arrives
    fulfils the second promise, the first one stays pending. *)
Lemma awaitResponse_drops_previous_waiter_witness :
  let s := run newSession [CallSendCommandWithResponse (js "1")] in
  promises (run (fst (awaitResponse s)) [SocketData (js "ok" ++ [LF])]) !! 0
  = Some Pending.
Proof.
  apply (awaitResponse_drops_previous_waiter
           [CallSendCommandWithResponse (js "1")]
           [SocketData (js "ok" ++ [LF])] 0).
  reflexivity.
Defined.

End SessionTraces.

(* ===================================================================== *)
(** * Destroying a session                                                *)
(* ===================================================================== *)

Section Destroy.

Import ServerSession Extension.

Lemma socket_destroy_idempotent (k : Socket) :
  socket_destroy (socket_destroy k) = socket_destroy k.
Proof. unfold socket_destroy. by destruct k as [[] w]. Qed.

Lemma socket_destroy_destroyed (k : Socket) :
  destroyed (socket_destroy k) = true.
Proof. unfold socket_destroy. by destruct k as [[] w]. Qed.

Lemma destroySession_twice {S : Type} `{Destroyable S} (h : Handle S) :
  destroySession (destroySession h) = destroySession h.
Proof. unfold destroySession. by destruct (flowrSession h). Qed.

(** C9.  [destroy] is defined on every session state, leaves the socket
    destroyed, and a second [destroy] changes nothing.  [destroySession]
    leaves [flowrSession] undefined and the session it referred to
    destroyed; a second [destroySession] changes nothing, for every kind
    of session. *)
Theorem destroy_idempotent :
  (forall s : Session,
      ServerSession.destroy (ServerSession.destroy s) = ServerSession.destroy s
      /\ destroyed (socket (ServerSession.destroy s)) = true
      /\ run s [CallDestroy; CallDestroy] = run s [CallDestroy])
  /\ (forall (S : Type) (D : Destroyable S) (h : Handle S),
         destroySession (destroySession h) = destroySession h
         /\ flowrSession (destroySession h) = None)
  /\ (forall (h : Handle Session) (r : nat) (s : Session),
         flowrSession h = Some r ->
         sessions h !! r = Some s ->
         sessions (destroySession h) !! r = Some (ServerSession.destroy s)
         /\ released (destroySession h) r
         /\ sessions (destroySession (destroySession h)) !! r
            = Some (ServerSession.destroy s)).
Proof.
  split; [|split].
  - intros s.
    assert (ServerSession.destroy (ServerSession.destroy s) = ServerSession.destroy s) as E.
    { unfold ServerSession.destroy. simpl. by rewrite socket_destroy_idempotent. }
    split; [exact E|]. split; [apply socket_destroy_destroyed|]. exact E.
  - intros S D h. split; [apply destroySession_twice|].
    unfold destroySession. by destruct (flowrSession h).
  - intros h r s Hr Hs.
    assert (sessions (destroySession h) !! r = Some (ServerSession.destroy s)) as E.
    { unfold destroySession. rewrite Hr. simpl.
      by rewrite list_lookup_alter_eq, Hs. }
    split; [exact E|]. split.
    + exists (ServerSession.destroy s). split; [exact E|]. apply socket_destroy_destroyed.
    + by rewrite destroySession_twice.
Qed.

(** A connected session is disconnected twice in a row. *)
Lemma destroy_idempotent_witness :
  let h := establishServerSession (mkHandle [] None) in
  destroySession (destroySession h) = destroySession h
  /\ released (destroySession (destroySession h)) 0.
Proof.
  destruct destroy_idempotent as (_ & H2 & H3).
  split; [apply H2|].
  rewrite (proj1 (H2 _ _ _)).
  apply (H3 (establishServerSession (mkHandle [] None)) 0 newSession);
    reflexivity.
Defined.

End Destroy.

(* ===================================================================== *)
(** * Location reconciliation                                             *)
(* ===================================================================== *)

Section Reconciliation.

Import Slice.

(** ** The location map *)

Lemma visit_lookup_inv (ns : list RNode) (m : gmap NodeId SourceRange)
    (id : NodeId) (l : SourceRange) :
  fold_left (fun m n => match location n with
                        | Some l => <[info_id n := l]> m
                        | None => m
                        end) ns m !! id = Some l ->
  m !! id = Some l
  \/ exists n, n ∈ ns /\ info_id n = id /\ location n = Some l.
Proof.
  revert m. induction ns as [|n ns IH]; intros m H; [by left|].
  simpl in H. apply IH in H as [H|(n' & Hin & Hid & Hl)].
  - destruct (location n) as [ln|] eqn:Hn; [|by left].
    destruct (decide (info_id n = id)) as [E|E].
    + rewrite E, lookup_insert_eq in H. injection H as <-.
      right. exists n. split; [left|done].
    + rewrite lookup_insert_ne in H by done. by left.
  - right. exists n'. split; [by right|done].
Qed.

Lemma visit_lookup_mono (ns : list RNode) (m : gmap NodeId SourceRange) (id : NodeId) :
  is_Some (m !! id) ->
  is_Some (fold_left (fun m n => match location n with
                                 | Some l => <[info_id n := l]> m
                                 | None => m
                                 end) ns m !! id).
Proof.
  revert m. induction ns as [|n ns IH]; intros m H; [done|].
  simpl. apply IH. destruct (location n) as [ln|]; [|done].
  rewrite lookup_insert. by case_decide.
Qed.

Lemma visit_lookup_located (ns : list RNode) (m : gmap NodeId SourceRange) (n : RNode) :
  n ∈ ns -> is_Some (location n) ->
  is_Some (fold_left (fun m n => match location n with
                                 | Some l => <[info_id n := l]> m
                                 | None => m
                                 end) ns m !! info_id n).
Proof.
  revert m. induction ns as [|n' ns IH]; intros m Hin Hl; [by apply elem_of_nil in Hin|].
  apply elem_of_cons in Hin as [->|Hin]; [|by apply IH].
  simpl. apply visit_lookup_mono. destruct Hl as [l ->].
  by rewrite lookup_insert_eq.
Qed.

(** ** Map and filter *)

Lemma located_elements (M : gmap NodeId SourceRange) (result : list NodeId) :
  omap withLocation
       (List.filter (fun e => isNotUndefined (snd e))
                    (List.map (fun id => (id, M !! id)) result))
  = omap (fun id => match M !! id with Some l => Some (id, l) | None => None end) result.
Proof.
  induction result as [|id result IH]; [done|].
  simpl. destruct (M !! id) as [l|] eqn:E; simpl.
  - f_equal. exact IH.
  - exact IH.
Qed.

Lemma located_elem_of (M : gmap NodeId SourceRange) (result : list NodeId)
    (id : NodeId) (l : SourceRange) :
  (id, l) ∈ omap (fun id => match M !! id with Some l => Some (id, l) | None => None end) result
  <-> id ∈ result /\ M !! id = Some l.
Proof.
  rewrite list_elem_of_omap. split.
  - intros (id' & Hin & H). destruct (M !! id') as [l'|] eqn:E; [|done].
    injection H as -> ->. done.
  - intros [Hin H]. exists id. by rewrite H.
Qed.

Lemma located_ids_sublist (M : gmap NodeId SourceRange) (result : list NodeId) :
  (omap (fun id => match M !! id with Some l => Some (id, l) | None => None end) result).*1
  `sublist_of` result.
Proof.
  induction result as [|id result IH]; [done|].
  simpl. destruct (M !! id); simpl.
  - by apply sublist_skip.
  - by apply sublist_cons.
Qed.

(** ** The sort *)

Lemma sortInsert_perm {A : Type} (cmp : A -> A -> Z) (x : A) (l : list A) :
  sortInsert cmp x l ≡ₚ x :: l.
Proof.
  induction l as [|y l IH]; [done|].
  simpl. destruct (cmp x y <=? 0)%Z; [done|].
  rewrite IH. apply Permutation_swap.
Qed.

Lemma arraySort_perm {A : Type} (cmp : A -> A -> Z) (l : list A) :
  arraySort cmp l ≡ₚ l.
Proof.
  induction l as [|x l IH]; [done|].
  simpl. fold (arraySort cmp l). by rewrite sortInsert_perm, IH.
Qed.

Lemma compareStart_le (a b : NodeId * SourceRange) :
  (compareStart a b <= 0)%Z -> startLe a b.
Proof.
  unfold compareStart, startLe.
  destruct (Z.eqb_spec (line (start a.2) - line (start b.2)) 0); lia.
Qed.

Lemma compareStart_gt (a b : NodeId * SourceRange) :
  ~ (compareStart a b <= 0)%Z -> startLe b a.
Proof.
  unfold compareStart, startLe.
  destruct (Z.eqb_spec (line (start a.2) - line (start b.2)) 0); lia.
Qed.

Lemma startLe_trans (a b c : NodeId * SourceRange) :
  startLe a b -> startLe b c -> startLe a c.
Proof. unfold startLe. lia. Qed.

Lemma sortInsert_sorted (x : NodeId * SourceRange) (l : list (NodeId * SourceRange)) :
  StronglySorted startLe l -> StronglySorted startLe (sortInsert compareStart x l).
Proof.
  induction 1 as [|y l Hl IH Hy]; simpl.
  { repeat constructor. }
  destruct (Z.leb_spec (compareStart x y) 0) as [Hle|Hgt].
  - apply compareStart_le in Hle. constructor; [by constructor|].
    constructor; [done|].
    eapply Forall_impl; [exact Hy|]. intros z Hz. by eapply startLe_trans.
  - constructor; [exact IH|].
    rewrite sortInsert_perm. constructor; [|done].
    apply compareStart_gt. lia.
Qed.

Lemma arraySort_sorted (l : list (NodeId * SourceRange)) :
  StronglySorted startLe (arraySort compareStart l).
Proof.
  induction l as [|x l IH]; [constructor|].
  simpl. by apply sortInsert_sorted.
Qed.

(** C3.  For a slice result without repeated identifiers and the location
    map built by visiting the AST, [retrieveSlice] hands on exactly the
    pairs of an identifier of the result and its location in the map, each
    identifier once, in ascending order of (start line, start column);
    identifiers without an entry in the map are left out.  The map has an
    entry for the nodes that carry a location and only for them. *)
Theorem retrieveSlice_reconciles (ast : RNode) (result : list NodeId) :
  NoDup result ->
  let M := idToLocation ast in
  let out := retrieveSliceElements ast result in
  (forall id l, (id, l) ∈ out <-> id ∈ result /\ M !! id = Some l)
  /\ NoDup (out.*1)
  /\ StronglySorted startLe out
  /\ (forall id, id ∈ result -> M !! id = None -> id ∉ out.*1)
  /\ (forall id l, M !! id = Some l ->
        exists n, n ∈ nodes ast /\ info_id n = id /\ location n = Some l)
  /\ (forall n, n ∈ nodes ast -> is_Some (location n) -> is_Some (M !! info_id n)).
Proof.
  intros Hnd M out.
  assert (out ≡ₚ omap (fun id => match M !! id with
                                 | Some l => Some (id, l)
                                 | None => None
                                 end) result) as Hperm.
  { subst out. unfold retrieveSliceElements, sliceElementsOf.
    rewrite arraySort_perm. by rewrite located_elements. }
  assert (forall id l, (id, l) ∈ out <-> id ∈ result /\ M !! id = Some l) as Hin.
  { intros id l. rewrite Hperm. apply located_elem_of. }
  split; [exact Hin|]. split; [|split; [|split; [|split]]].
  - rewrite Hperm. eapply sublist_NoDup; [exact Hnd|apply located_ids_sublist].
  - apply arraySort_sorted.
  - intros id _ Hnone [[id' l] [E Hl]]%list_elem_of_fmap. simpl in E. subst id'.
    apply Hin in Hl as [_ Hl]. congruence.
  - intros id l H. apply visit_lookup_inv in H as [H|H]; [|exact H].
    by rewrite lookup_empty in H.
  - intros n Hn Hl. by apply visit_lookup_located.
Qed.

(** The scenario of the specification: [n1] at (1,1)-(1,6), [n2] at
    (2,1)-(2,11), and the slice result [n1], [n2], [n3], where [n3] has no
    location. *)
Lemma retrieveSlice_reconciles_witness :
  let r1 := mkRange (mkPosition 1 1) (mkPosition 1 6) in
  let r2 := mkRange (mkPosition 2 1) (mkPosition 2 11) in
  let ast := mkRNode (js "n0") None
               [mkRNode (js "n2") (Some r2) []; mkRNode (js "n1") (Some r1) [];
                mkRNode (js "n3") None []] in
  retrieveSliceElements ast [js "n3"; js "n2"; js "n1"] = [(js "n1", r1); (js "n2", r2)]
  /\ StronglySorted startLe (retrieveSliceElements ast [js "n3"; js "n2"; js "n1"]).
Proof.
  intros r1 r2 ast. split; [by vm_compute|].
  apply (retrieveSlice_reconciles ast [js "n3"; js "n2"; js "n1"]).
  apply (bool_decide_unpack _). by vm_compute.
Defined.

End Reconciliation.


(* ===================================================================== *)
(** * The ring buffer                                                     *)
(* ===================================================================== *)

Section RingBuffer.

Import Rotary.

Context {A : Type}.

Lemma push_capacity (b : RotaryBuffer A) (x : A) :
  capacity (push b x) = capacity b.
Proof. unfold capacity, push. simpl. apply length_insert. Qed.

Lemma push_index_lt (b : RotaryBuffer A) (x : A) :
  0 < capacity b -> index (push b x) < capacity (push b x).
Proof.
  intros H. rewrite push_capacity. unfold push, capacity in *. simpl.
  apply Nat.mod_upper_bound. lia.
Qed.

Lemma rotation_push (b : RotaryBuffer A) (x : A) :
  index b < capacity b ->
  rotation (push b x) = drop 1 (rotation b) ++ [Some x].
Proof.
  unfold capacity, rotation, push. destruct b as [s i]. simpl. intros Hi.
  rewrite (insert_take_drop s i (Some x) Hi).
  assert (length (take i s) = i) as Hlen by (rewrite length_take; lia).
  destruct (decide (i + 1 = length s)) as [E|E].
  - rewrite E, Nat.Div0.mod_same. simpl.
    rewrite (drop_ge s (S i)) by lia. rewrite take_0, app_nil_r.
    destruct (drop i s) as [|y d] eqn:Hd.
    { apply (f_equal length) in Hd. rewrite length_drop in Hd. simpl in Hd. lia. }
    assert (d = []) as ->.
    { apply (f_equal length) in Hd. rewrite length_drop in Hd. simpl in Hd.
      apply nil_length_inv. lia. }
    done.
  - rewrite Nat.mod_small by lia.
    rewrite drop_app_ge, take_app_ge by lia. rewrite Hlen.
    replace (i + 1 - i) with 1 by lia. simpl.
    destruct (lookup_lt_is_Some_2 s i Hi) as [y Hy].
    rewrite (drop_S s y i Hy). simpl. rewrite take_0, !drop_0. by rewrite <- app_assoc.
Qed.

Lemma rotation_length (b : RotaryBuffer A) :
  index b <= capacity b -> length (rotation b) = capacity b.
Proof.
  unfold rotation, capacity. intros H.
  rewrite length_app, length_drop, length_take. lia.
Qed.

Lemma rotation_pushAll (l : list A) (b : RotaryBuffer A) :
  index b < capacity b ->
  rotation (pushAll b l) = drop (length l) (rotation b ++ List.map Some l)
  /\ index (pushAll b l) < capacity (pushAll b l)
  /\ capacity (pushAll b l) = capacity b.
Proof.
  revert b. induction l as [|x l IH]; intros b Hi.
  { simpl. by rewrite app_nil_r. }
  simpl. destruct (IH (push b x)) as (-> & Hi' & Hc).
  { apply push_index_lt. lia. }
  rewrite rotation_push by done. rewrite Hc in Hi' |- *.
  rewrite push_capacity in Hi' |- *. split; [|done].
  pose proof (rotation_length b ltac:(lia)) as Hlen.
  destruct (rotation b) as [|y r]; [simpl in Hlen; lia|].
  simpl. by rewrite <- app_assoc.
Qed.

Lemma omap_id_None (n : nat) : omap id (replicate n (@None A)) = [].
Proof. induction n; [done|]. simpl. done. Qed.

Lemma omap_id_Some (l : list A) : omap id (List.map Some l) = l.
Proof. induction l as [|x l IH]; [done|]. simpl. by f_equal. Qed.

Lemma rotation_create (cap : nat) : rotation (@create A cap) = replicate cap None.
Proof. unfold rotation, create. simpl. by rewrite app_nil_r. Qed.

(** After any number of pushes on a new buffer, the buffer holds the
    entries pushed last, as many as fit, oldest first. *)
Lemma entries_pushAll_create (cap : nat) (l : list A) :
  0 < cap ->
  entries (pushAll (create cap) l) = drop (length l - cap) l.
Proof.
  intros Hcap. unfold entries.
  destruct (rotation_pushAll l (create cap)) as (-> & _ & _).
  { unfold capacity, create. simpl. by rewrite length_replicate. }
  rewrite rotation_create.
  destruct (decide (length l <= cap)) as [Hle|Hgt].
  - rewrite drop_app_le by (rewrite length_replicate; lia).
    rewrite omap_app, drop_replicate, omap_id_None, omap_id_Some. simpl.
    by replace (length l - cap) with 0 by lia.
  - rewrite drop_app_ge by (rewrite length_replicate; lia).
    rewrite length_replicate.
    rewrite <- (omap_id_Some (drop (length l - cap) l)).
    f_equal. clear. generalize (length l - cap). intros n. revert n.
    induction l as [|x l IH]; intros [|n]; simpl; try done.
Qed.


(** [get] looks through the entries from the newest to the oldest. *)
Lemma get_pushAll_create (cap : nat) (l : list A) (predicate : A -> bool) :
  0 < cap ->
  get (pushAll (create cap) l) predicate
  = List.find predicate (rev (drop (length l - cap) l)).
Proof. intros Hcap. unfold get. by rewrite entries_pushAll_create. Qed.

(** C5.  Pushing [capacity + 1] distinct entries on a new buffer leaves
    exactly [capacity] entries: the first entry pushed is gone and the
    [capacity] entries pushed after it are there, oldest first. *)
Theorem rotary_fifo_eviction (cap : nat) (l : list A) :
  0 < cap ->
  length l = cap + 1 ->
  NoDup l ->
  let b := pushAll (create cap) l in
  entries b = drop 1 l
  /\ length (entries b) = cap
  /\ capacity b = cap
  /\ (forall x, head l = Some x -> x ∉ entries b)
  /\ (forall x, x ∈ drop 1 l -> x ∈ entries b).
Proof.
  intros Hcap Hlen Hnd b.
  assert (entries b = drop 1 l) as E.
  { subst b. rewrite entries_pushAll_create by done. f_equal. lia. }
  rewrite E. split; [done|]. split; [rewrite length_drop; lia|]. split.
  { subst b. destruct (rotation_pushAll l (create cap)) as (_ & _ & ->);
      unfold capacity, create; simpl; rewrite length_replicate; lia. }
  split; [|done].
  intros x Hx. destruct l as [|y l]; [done|]. injection Hx as ->.
  simpl. rewrite drop_0. by apply NoDup_cons in Hnd as [? _].
Qed.

End RingBuffer.

(** The cache of the dependency view has capacity 5: six fingerprints
    pushed, the first one is evicted. *)
Lemma rotary_fifo_eviction_witness :
  Rotary.capacity (DependencyView.textBuffer DependencyView.newView) = 5
  /\ Rotary.entries (Rotary.pushAll (Rotary.create 5) [1; 2; 3; 4; 5; 6]) = [2; 3; 4; 5; 6].
Proof.
  split; [reflexivity|].
  apply (rotary_fifo_eviction 5 [1; 2; 3; 4; 5; 6]).
  - lia.
  - reflexivity.
  - apply (bool_decide_unpack _). by vm_compute.
Defined.

(* ===================================================================== *)
(** * The dependency view                                                 *)
(* ===================================================================== *)

Section Refresh.

Import Rotary DependencyView.

(** ** The guards *)

Lemma refreshGuards_working (ed : option Editor) (v : View) :
  working v = true -> refreshGuards ed v = (v, inl AtWorkingGuard).
Proof. intros H. unfold refreshGuards. by rewrite H. Qed.

Lemma refreshGuards_same_text (ed : Editor) (v : View) :
  working v = false ->
  languageId ed = js "r" ->
  Fingerprint.textFingerprint (getText ed) = lastText v ->
  refreshGuards (Some ed) v = (v, inl AtLastText).
Proof.
  intros Hw Hl Ht. unfold refreshGuards. rewrite Hw, Hl, Ht.
  rewrite !bool_decide_eq_true_2; done.
Qed.

Lemma refreshGuards_new_text (ed : Editor) (v : View) :
  working v = false ->
  languageId ed = js "r" ->
  Fingerprint.textFingerprint (getText ed) <> lastText v ->
  refreshGuards (Some ed) v
  = (mkView false (Fingerprint.textFingerprint (getText ed)) (textBuffer v)
            (activeDependencies v) (locationMap v) (output v) (fired v)
            (revealsScheduled v) (cacheLookups v) (roundTrips v),
     inr (Fingerprint.textFingerprint (getText ed))).
Proof.
  intros Hw Hl Ht. unfold refreshGuards. rewrite Hw, Hl.
  rewrite bool_decide_eq_true_2 by done. simpl.
  rewrite bool_decide_eq_false_2; done.
Qed.

(** Whoever passes the guards has stored the fingerprint, and has neither
    looked into the cache nor issued a query. *)
Lemma refreshGuards_passed (ed : option Editor) (v v1 : View) (text : JSString) :
  refreshGuards ed v = (v1, inr text) ->
  lastText v1 = text
  /\ working v = false
  /\ working v1 = false
  /\ textBuffer v1 = textBuffer v
  /\ cacheLookups v1 = cacheLookups v
  /\ roundTrips v1 = roundTrips v
  /\ exists e, ed = Some e /\ languageId e = js "r"
               /\ text = Fingerprint.textFingerprint (getText e)
               /\ text <> lastText v.
Proof.
  unfold refreshGuards. destruct (working v) eqn:Hw; [done|].
  destruct ed as [e|]; [|done].
  destruct (bool_decide (languageId e = js "r")) eqn:Hl; [|done]. simpl.
  destruct (bool_decide (Fingerprint.textFingerprint (getText e) = lastText v)) eqn:Ht;
    [done|].
  intros [= <- <-]. simpl. repeat split; try done.
  exists e. repeat split.
  - by apply bool_decide_eq_true in Hl.
  - by apply bool_decide_eq_false in Ht.
Qed.

Lemma refreshGuards_returned (ed : option Editor) (v v1 : View) (e : Exit) :
  refreshGuards ed v = (v1, inl e) -> v1 = v.
Proof.
  unfold refreshGuards. destruct (working v); [by intros [= <- _]|].
  destruct ed as [ed|]; [|by intros [= <- _]].
  destruct (negb _); [by intros [= <- _]|].
  destruct (bool_decide _); [by intros [= <- _]|done].
Qed.

(** ** The body and the resumption *)

Lemma refreshBody_spec (ed : option Editor) (text : JSString) (v : View) :
  let r := refreshBody ed text v in
  lastText r.1 = lastText v
  /\ cacheLookups r.1 = S (cacheLookups v)
  /\ match r.2 with
     | Returned e =>
         e = AfterCacheHit /\ working r.1 = false
         /\ roundTrips r.1 = roundTrips v /\ textBuffer r.1 = textBuffer v
     | Awaiting k =>
         working r.1 = true /\ suspendedText k = text
         /\ textBuffer r.1 = textBuffer v
         /\ roundTrips r.1 = (if queryIssued k then S (roundTrips v) else roundTrips v)
         /\ (is_Some ed -> queryIssued k = true)
         /\ get (textBuffer v) (fun e => bool_decide (e.1 = text)) = None
     end.
Proof.
  unfold refreshBody. simpl.
  destruct (get (textBuffer v) _) as [has|] eqn:Hget; simpl; [done|].
  destruct ed as [e|]; simpl; repeat split; try done.
Qed.

Lemma refreshSettle_spec (keep : bool) (k : Suspended) (o : QueryOutcome) (v : View) :
  let v' := refreshSettle keep k o v in
  working v' = working v
  /\ lastText v' = lastText v
  /\ roundTrips v' = roundTrips v
  /\ cacheLookups v' = cacheLookups v
  /\ (queryIssued k = true -> (forall res, o <> QueryOk res) ->
      textBuffer v' = textBuffer v).
Proof.
  unfold refreshSettle, getDependenciesFinish.
  destruct (queryIssued k), o as [res| |e], keep; simpl; repeat split; try done.
  all: intros _ H; by destruct (H res).
Qed.

Lemma refreshResume_spec (keep : bool) (k : Suspended) (o : QueryOutcome) (v : View) :
  let v' := refreshResume keep k o v in
  working v' = false
  /\ lastText v' = lastText v
  /\ roundTrips v' = roundTrips v
  /\ cacheLookups v' = cacheLookups v
  /\ (queryIssued k = true -> (forall res, o <> QueryOk res) ->
      textBuffer v' = textBuffer v).
Proof.
  pose proof (refreshSettle_spec keep k o v) as (_ & ? & ? & ? & ?).
  unfold refreshResume, finallyBlock. simpl. done.
Qed.

(** ** A whole call *)

Lemma refresh_spec (ed : Editor) (keep : bool) (o : QueryOutcome) (v : View) :
  working v = false ->
  languageId ed = js "r" ->
  let v' := refresh (Some ed) keep o v in
  working v' = false
  /\ lastText v' = Fingerprint.textFingerprint (getText ed)
  /\ roundTrips v' <= S (roundTrips v).
Proof.
  intros Hw Hl v'. subst v'. unfold refresh, refreshEnter.
  destruct (refreshGuards (Some ed) v) as [v1 [e|text]] eqn:Hg.
  - pose proof (refreshGuards_returned _ _ _ _ Hg) as ->.
    destruct (decide (Fingerprint.textFingerprint (getText ed) = lastText v)) as [E|E].
    + repeat split; [done|done|lia].
    + rewrite refreshGuards_new_text in Hg by done. done.
  - apply refreshGuards_passed in Hg
      as (Hlt & _ & Hw1 & _ & _ & Hrt & e & [= <-] & _ & -> & _).
    pose proof (refreshBody_spec (Some ed) (Fingerprint.textFingerprint (getText ed)) v1)
      as (Hb1 & _ & Hb).
    destruct (refreshBody _ _ v1) as [v2 [x|k]]; simpl in Hb1, Hb.
    + destruct Hb as (_ & ? & ? & _). repeat split; [done|congruence|lia].
    + destruct Hb as (_ & _ & _ & Hr & _).
      pose proof (refreshResume_spec keep k o v2) as (E1 & E2 & E3 & _).
      rewrite E1, E2, E3. split; [done|]. split; [congruence|].
      destruct (queryIssued k); lia.
Qed.

Lemma refreshEnter_same_text (ed : Editor) (v : View) :
  working v = false ->
  languageId ed = js "r" ->
  Fingerprint.textFingerprint (getText ed) = lastText v ->
  refreshEnter (Some ed) v = (v, Returned AtLastText).
Proof.
  intros Hw Hl Ht. unfold refreshEnter.
  by rewrite refreshGuards_same_text.
Qed.

(** C4.  Two calls of [refresh], one after the other, on an R document
    whose fingerprint is the same at both calls: the second call returns
    at the comparison with [lastText] and leaves the view as it is, so it
    neither looks into the cache nor issues a query, and both calls
    together issue at most one query. *)
Theorem consecutive_refresh_one_round_trip
    (ed1 ed2 : Editor) (keep1 keep2 : bool) (o1 o2 : QueryOutcome) (v : View) :
  working v = false ->
  languageId ed1 = js "r" ->
  languageId ed2 = js "r" ->
  Fingerprint.textFingerprint (getText ed1) = Fingerprint.textFingerprint (getText ed2) ->
  let v1 := refresh (Some ed1) keep1 o1 v in
  let v2 := refresh (Some ed2) keep2 o2 v1 in
  refreshEnter (Some ed2) v1 = (v1, Returned AtLastText)
  /\ v2 = v1
  /\ cacheLookups v2 = cacheLookups v1
  /\ roundTrips v2 = roundTrips v1
  /\ roundTrips v2 <= roundTrips v + 1.
Proof.
  intros Hw Hl1 Hl2 Ht v1 v2.
  destruct (refresh_spec ed1 keep1 o1 v Hw Hl1) as (Hw1 & Hlt & Hrt).
  fold v1 in Hw1, Hlt, Hrt.
  assert (refreshEnter (Some ed2) v1 = (v1, Returned AtLastText)) as E.
  { apply refreshEnter_same_text; [done|done|congruence]. }
  assert (v2 = v1) as ->.
  { subst v2. unfold refresh. by rewrite E. }
  repeat split; [done|lia].
Qed.

(** An R document is refreshed twice on a new view; the query of the
    first call answers. *)
Lemma consecutive_refresh_one_round_trip_witness :
  let ed := mkEditor (js "r") (js "x <- 1") in
  let res := mkBundle emptyDependencies emptyLocationMap in
  let v1 := refresh (Some ed) true (QueryOk res) newView in
  roundTrips v1 = 1
  /\ refreshEnter (Some ed) v1 = (v1, Returned AtLastText)
  /\ roundTrips (refresh (Some ed) true (QueryOk res) v1) <= 1.
Proof.
  intros ed res v1.
  pose proof (consecutive_refresh_one_round_trip ed ed true true
                (QueryOk res) (QueryOk res) newView
                eq_refl eq_refl eq_refl eq_refl) as (H1 & _ & _ & _ & H2).
  split; [reflexivity|]. split; [exact H1|exact H2].
Defined.

(** C10.  A call of [refresh] that gets past the comparison with
    [lastText] has stored the new fingerprint in [lastText] before it
    looks into the cache and before it issues the query.  So when the
    query of such a call fails, nothing is cached, and a call that follows
    on the unchanged document returns at the comparison with [lastText]:
    the query is not tried again. *)
Theorem lastText_set_before_query
    (ed : Editor) (keep : bool) (outcome : QueryOutcome) (v : View) :
  working v = false ->
  languageId ed = js "r" ->
  Fingerprint.textFingerprint (getText ed) <> lastText v ->
  get (textBuffer v) (fun e => bool_decide (e.1 = Fingerprint.textFingerprint (getText ed)))
  = None ->
  (forall res, outcome <> QueryOk res) ->
  let text := Fingerprint.textFingerprint (getText ed) in
  (forall a w w1 t,
      refreshGuards a w = (w1, inr t) ->
      lastText w1 = t
      /\ cacheLookups w1 = cacheLookups w
      /\ roundTrips w1 = roundTrips w
      /\ refreshEnter a w = refreshBody a t w1)
  /\ (exists v1 k,
         refreshEnter (Some ed) v = (v1, Awaiting k)
         /\ lastText v1 = text
         /\ roundTrips v1 = S (roundTrips v))
  /\ (let v2 := refresh (Some ed) keep outcome v in
      lastText v2 = text
      /\ textBuffer v2 = textBuffer v
      /\ roundTrips v2 = S (roundTrips v)
      /\ refreshEnter (Some ed) v2 = (v2, Returned AtLastText)
      /\ forall keep' outcome', refresh (Some ed) keep' outcome' v2 = v2).
Proof.
  intros Hw Hl Ht Hmiss Hfail text.
  split.
  { intros a w w1 t Hg. unfold refreshEnter. rewrite Hg.
    apply refreshGuards_passed in Hg as (? & _ & _ & _ & ? & ? & _). done. }
  pose proof (refreshGuards_new_text ed v Hw Hl Ht) as Hg. fold text in Hg.
  set (v0 := mkView false text (textBuffer v) (activeDependencies v) (locationMap v)
                    (output v) (fired v) (revealsScheduled v) (cacheLookups v)
                    (roundTrips v)) in Hg.
  pose proof (refreshBody_spec (Some ed) text v0) as (Hb1 & _ & Hb).
  assert (exists v1 k, refreshBody (Some ed) text v0 = (v1, Awaiting k)) as (v1 & k & Hbody).
  { unfold refreshBody. simpl. fold text in Hmiss. rewrite Hmiss. simpl. eauto. }
  rewrite Hbody in Hb1, Hb. simpl in Hb1, Hb.
  destruct Hb as (Hw1 & Hk & Hbuf & Hrt & Hissued & _).
  specialize (Hissued ltac:(eauto)). rewrite Hissued in Hrt.
  assert (refreshEnter (Some ed) v = (v1, Awaiting k)) as Hent.
  { unfold refreshEnter. by rewrite Hg. }
  split.
  { exists v1, k. done. }
  intros v2. subst v2. unfold refresh. rewrite Hent.
  pose proof (refreshResume_spec keep k outcome v1) as (Hw2 & Hlt2 & Hrt2 & _ & Hbuf2).
  specialize (Hbuf2 Hissued Hfail).
  assert (refreshEnter (Some ed) (refreshResume keep k outcome v1)
          = (refreshResume keep k outcome v1, Returned AtLastText)) as E.
  { apply refreshEnter_same_text; [done|done|]. by rewrite Hlt2, Hb1. }
  repeat split.
  - by rewrite Hlt2, Hb1.
  - by rewrite Hbuf2, Hbuf.
  - by rewrite Hrt2, Hrt.
  - exact E.
  - intros keep' outcome'. unfold refresh. by rewrite E.
Qed.

(** The query of the first refresh of a document fails; the next call
    returns at the comparison and the query count stays at one. *)
Lemma lastText_set_before_query_witness :
  let ed := mkEditor (js "r") (js "x <- 1") in
  let v2 := refresh (Some ed) true QueryFailed newView in
  roundTrips v2 = 1
  /\ refreshEnter (Some ed) v2 = (v2, Returned AtLastText).
Proof.
  intros ed v2.
  destruct (lastText_set_before_query ed true QueryFailed newView)
    as (_ & _ & (_ & _ & H1 & H2 & _)); try done.
Defined.

(** ** Calls that overlap *)

Lemma loopStep_guarded (l : Loop) (e : ViewEvent) :
  guarded l -> guarded (loopStep l e).
Proof.
  unfold guarded. intros Hg. destruct e as [ed|i keep o|i]; simpl.
  - unfold refreshEnter.
    destruct (refreshGuards ed (view l)) as [v1 [x|text]] eqn:Hgu.
    + by rewrite (refreshGuards_returned _ _ _ _ Hgu).
    + apply refreshGuards_passed in Hgu as (_ & Hw & _).
      rewrite Hw in Hg.
      pose proof (refreshBody_spec ed text v1) as (_ & _ & Hb).
      destruct (refreshBody ed text v1) as [v2 [x|k]]; simpl in *.
      * destruct Hb as (_ & -> & _). exact Hg.
      * destruct Hb as (-> & _). rewrite length_app, Hg. done.
  - destruct (inFlight l !! i) as [[k []]|] eqn:Hk; try done. simpl.
    pose proof (refreshSettle_spec keep k o (view l)) as (-> & _).
    by rewrite length_insert.
  - destruct (inFlight l !! i) as [[k []]|] eqn:Hk; try done. simpl.
    pose proof (lookup_lt_Some _ _ _ Hk) as Hlt.
    rewrite length_delete by eauto.
    destruct (working (view l)); lia.
Qed.

Lemma loopRun_guarded (trace : list ViewEvent) : guarded (loopRun newLoop trace).
Proof.
  unfold loopRun. generalize newLoop, (eq_refl : guarded newLoop).
  induction trace as [|e trace IH]; intros l Hl; [done|].
  simpl. apply IH. by apply loopStep_guarded.
Qed.

(** C7.  In every state the view reaches, at most one call of [refresh]
    is suspended, and [working] is set exactly then.  A call that arrives
    while one is suspended returns at the [working] guard and changes
    nothing: it is not queued.  The callbacks of the suspended call leave
    [working] set; when the call then finishes, its [finally] block clears
    [working] and no call is suspended any more. *)
Theorem refresh_not_reentrant (trace : list ViewEvent) :
  let l := loopRun newLoop trace in
  length (inFlight l) <= 1
  /\ (working (view l) = true <-> length (inFlight l) = 1)
  /\ (forall ed, inFlight l <> [] ->
        refreshEnter ed (view l) = (view l, Returned AtWorkingGuard)
        /\ loopStep l (Trigger ed) = l)
  /\ (forall i keep outcome k, inFlight l !! i = Some (k, false) ->
        working (view (loopStep l (Settle i keep outcome))) = true
        /\ inFlight (loopStep l (Settle i keep outcome)) = [(k, true)])
  /\ (forall i k, inFlight l !! i = Some (k, true) ->
        working (view (loopStep l (Return i))) = false
        /\ inFlight (loopStep l (Return i)) = []).
Proof.
  intros l. pose proof (loopRun_guarded trace) as Hg. fold l in Hg.
  unfold guarded in Hg.
  split; [destruct (working (view l)); lia|].
  split; [destruct (working (view l)); split; (done || lia)|].
  split.
  { intros ed Hne.
    assert (working (view l) = true) as Hw.
    { destruct (working (view l)); [done|]. by destruct (inFlight l). }
    assert (refreshEnter ed (view l) = (view l, Returned AtWorkingGuard)) as E.
    { unfold refreshEnter. by rewrite refreshGuards_working. }
    split; [exact E|]. simpl. rewrite E. by destruct l. }
  split.
  - intros i keep outcome k Hk. simpl. rewrite Hk. simpl.
    pose proof (refreshSettle_spec keep k outcome (view l)) as (-> & _).
    pose proof (lookup_lt_Some _ _ _ Hk) as Hlt.
    destruct (working (view l)); [|lia]. split; [done|].
    destruct (inFlight l) as [|x [|y r]]; simpl in *; try lia.
    by destruct i; [|lia].
  - intros i k Hk. simpl. rewrite Hk. simpl. split; [done|].
    pose proof (lookup_lt_Some _ _ _ Hk) as Hlt.
    apply nil_length_inv. rewrite length_delete by eauto.
    destruct (working (view l)); lia.
Qed.

(** A refresh is triggered, a second one arrives before the query has
    answered and is dropped, then the query answers and the call
    finishes. *)
Lemma refresh_not_reentrant_witness :
  let ed := mkEditor (js "r") (js "x <- 1") in
  let ed' := mkEditor (js "r") (js "y <- 2") in
  let l := loopRun newLoop [Trigger (Some ed)] in
  let l' := loopStep l (Settle 0 true QueryFailed) in
  length (inFlight l) = 1
  /\ loopStep l (Trigger (Some ed')) = l
  /\ working (view l') = true
  /\ inFlight (loopStep l' (Return 0)) = [].
Proof.
  intros ed ed' l l'.
  destruct (refresh_not_reentrant [Trigger (Some ed)]) as (_ & _ & H1 & H2 & _).
  destruct (refresh_not_reentrant [Trigger (Some ed); Settle 0 true QueryFailed])
    as (_ & _ & _ & _ & H3).
  split; [reflexivity|]. split; [apply H1; discriminate|]. split.
  - apply (H2 0 true QueryFailed
              (mkSuspended (Fingerprint.textFingerprint (js "x <- 1")) true)).
    reflexivity.
  - apply (H3 0 (mkSuspended (Fingerprint.textFingerprint (js "x <- 1")) true)).
    reflexivity.
Defined.

End Refresh.

(* ===================================================================== *)
(** * The fingerprint                                                     *)
(* ===================================================================== *)

Section FingerprintFacts.

Import Fingerprint.

Lemma regexExec_space (before : option N) (c : N) (tl : JSString) :
  isSpace c = true -> regexExec before (c :: tl) = Some 1.
Proof. intros H. unfold regexExec, altSpace. by rewrite H. Qed.

(** The second alternative is only ever tried on a unit that is no space,
    so its [\s*] matches nothing: it matches exactly when [#] stands at
    the start of a line. *)
Lemma regexExec_not_space (before : option N) (c : N) (tl : JSString) :
  isSpace c = false ->
  regexExec before (c :: tl)
  = if atLineStart before && (c =? HASH)%N
    then Some (1 + length (takeWhile (fun u => negb (isLineTerminator u)) tl))
    else None.
Proof.
  intros H. unfold regexExec, altSpace, altComment. rewrite H. simpl. rewrite H.
  by destruct (atLineStart before), (c =? HASH)%N.
Qed.

(** No space unit survives in a fingerprint. *)
Lemma replaceGo_no_space (rest : JSString) (before : option N) (skip : nat) :
  Forall (fun c => isSpace c = false) (replaceGo before skip rest).
Proof.
  revert before skip. induction rest as [|c tl IH]; intros before skip; [constructor|].
  simpl. destruct skip as [|k]; [|apply IH].
  destruct (isSpace c) eqn:Hc.
  - rewrite regexExec_space by done. apply IH.
  - destruct (regexExec before (c :: tl)) as [[|n]|]; try apply IH.
    all: constructor; [done|apply IH].
Qed.

Lemma textFingerprint_no_space (text : JSString) :
  Forall (fun c => isSpace c = false) (textFingerprint text).
Proof. apply replaceGo_no_space. Qed.

Lemma isLineTerminator_isSpace (c : N) : isLineTerminator c = true -> isSpace c = true.
Proof. unfold isSpace. intros ->. apply orb_true_r. Qed.

Lemma afterLine_eq (before : option N) (rest : JSString) :
  atLineEnd rest -> replaceGo before 0 rest = afterLine rest.
Proof.
  destruct rest as [|c tl]; [done|]. simpl. intros Hc.
  by rewrite regexExec_space by by apply isLineTerminator_isSpace.
Qed.

Lemma takeWhile_line (ln rest : JSString) :
  Forall (fun u => isLineTerminator u = false) ln -> atLineEnd rest ->
  takeWhile notLT (ln ++ rest) = ln.
Proof.
  intros Hln Hrest. induction Hln as [|x ln Hx _ IH]; simpl.
  - destruct rest as [|c tl]; [done|]. simpl in *. by rewrite Hrest.
  - by rewrite Hx, IH.
Qed.

(** Inside a line, past its first unit, only spaces are removed. *)
Lemma replaceGo_inside_line (ln rest : JSString) (b : N) :
  isLineTerminator b = false ->
  Forall (fun u => isLineTerminator u = false) ln -> atLineEnd rest ->
  replaceGo (Some b) 0 (ln ++ rest) = stripSpace ln ++ afterLine rest.
Proof.
  intros Hb Hln Hrest. revert b Hb.
  induction Hln as [|x ln Hx _ IH]; intros b Hb.
  { by apply afterLine_eq. }
  cbn [app replaceGo stripSpace List.filter].
  destruct (isSpace x) eqn:Hs.
  - rewrite regexExec_space by done. simpl. by apply IH.
  - rewrite regexExec_not_space by done. simpl. rewrite Hb. simpl.
    f_equal. by apply IH.
Qed.

(** A match that covers the rest of the line removes it. *)
Lemma replaceGo_skip_line (ln rest : JSString) (before : option N) :
  atLineEnd rest ->
  replaceGo before (length ln) (ln ++ rest) = afterLine rest.
Proof.
  intros Hrest. revert before. induction ln as [|x ln IH]; intros before.
  { by apply afterLine_eq. }
  simpl. apply IH.
Qed.

Lemma isSpace_HASH : isSpace HASH = false.
Proof. reflexivity. Qed.

(** A line scanned from its start. *)
Lemma replaceGo_line (ln rest : JSString) (before : option N) :
  atLineStart before = true ->
  Forall (fun u => isLineTerminator u = false) ln -> atLineEnd rest ->
  (isCommentLine ln = true -> head ln = Some HASH) ->
  replaceGo before 0 (ln ++ rest)
  = (if isCommentLine ln then [] else stripSpace ln) ++ afterLine rest.
Proof.
  intros Hstart Hln Hrest Hcol.
  destruct ln as [|x ln].
  { simpl. by apply afterLine_eq. }
  apply Forall_cons in Hln as [Hx Hln].
  cbn [app replaceGo].
  destruct (isSpace x) eqn:Hs.
  - rewrite regexExec_space by done.
    destruct (isCommentLine (x :: ln)) eqn:Hc.
    + specialize (Hcol eq_refl). injection Hcol as ->. by rewrite isSpace_HASH in Hs.
    + simpl. rewrite replaceGo_inside_line by done.
      unfold stripSpace. cbn [List.filter]. by rewrite Hs.
  - rewrite regexExec_not_space by done. rewrite Hstart. simpl.
    unfold isCommentLine. simpl. rewrite Hs.
    destruct (x =? HASH)%N eqn:Hh.
    + rewrite takeWhile_line by done. simpl. by apply replaceGo_skip_line.
    + simpl. f_equal.
      by apply replaceGo_inside_line.
Qed.

(** The lines of a text that starts with the line [ln]. *)
Lemma splitLines_line (ln rest cur : JSString) :
  Forall (fun u => isLineTerminator u = false) ln -> atLineEnd rest ->
  splitLines cur (ln ++ rest)
  = match rest with
    | [] => [rev cur ++ ln]
    | c :: tl => (rev cur ++ ln) :: splitLines [] tl
    end.
Proof.
  intros Hln Hrest. revert cur. induction Hln as [|x ln Hx _ IH]; intros cur.
  - simpl. rewrite app_nil_r. destruct rest as [|c tl]; [done|].
    simpl in *. by rewrite Hrest.
  - cbn [app splitLines]. rewrite Hx, IH. simpl. rewrite <- app_assoc. simpl.
    by destruct rest.
Qed.

(** Every text is a first line followed by the end of the text or by a
    line terminator. *)
Lemma first_line (t : JSString) :
  exists ln rest,
    t = ln ++ rest
    /\ Forall (fun u => isLineTerminator u = false) ln
    /\ atLineEnd rest.
Proof.
  induction t as [|c t (ln & rest & -> & Hln & Hrest)].
  { by exists [], []. }
  destruct (isLineTerminator c) eqn:Hc.
  - exists [], (c :: ln ++ rest). by repeat split.
  - exists (c :: ln), rest. repeat split; [|done]. by constructor.
Qed.

Lemma replaceGo_agrees (n : nat) (t : JSString) (before : option N) :
  length t <= n ->
  atLineStart before = true ->
  commentsInFirstColumn t ->
  replaceGo before 0 t = specNormalize t.
Proof.
  revert t before. induction n as [|n IH]; intros t before Hn Hstart Hcol.
  { destruct t; [done|simpl in Hn; lia]. }
  destruct (first_line t) as (ln & rest & -> & Hln & Hrest).
  unfold commentsInFirstColumn, specNormalize in *.
  rewrite splitLines_line in Hcol |- * by done. simpl in Hcol |- *.
  destruct rest as [|c tl].
  - apply Forall_cons in Hcol as [Hcol _].
    rewrite replaceGo_line by done. simpl.
    destruct (isCommentLine ln); simpl; by rewrite ?app_nil_r.
  - apply Forall_cons in Hcol as [Hcol Htl].
    rewrite replaceGo_line by done. simpl.
    rewrite (IH tl (Some c)); [|rewrite length_app in Hn; simpl in Hn; lia|done|done].
    by destruct (isCommentLine ln).
Qed.

(** ** Trimming does not change the normalisation *)

Lemma dropWhile_spaces_app (ws ln : JSString) :
  Forall (fun u => isSpace u = true) ws ->
  dropWhile isSpace (ws ++ ln) = dropWhile isSpace ln.
Proof. induction 1 as [|x ws Hx _ IH]; [done|]. simpl. by rewrite Hx. Qed.

Lemma isCommentLine_spaces_app (ws ln : JSString) :
  Forall (fun u => isSpace u = true) ws ->
  isCommentLine (ws ++ ln) = isCommentLine ln.
Proof. intros H. unfold isCommentLine. by rewrite dropWhile_spaces_app. Qed.

Lemma stripSpace_app (l1 l2 : JSString) :
  stripSpace (l1 ++ l2) = stripSpace l1 ++ stripSpace l2.
Proof. unfold stripSpace. apply List.filter_app. Qed.

Lemma stripSpace_spaces (ws : JSString) :
  Forall (fun u => isSpace u = true) ws -> stripSpace ws = [].
Proof.
  induction 1 as [|x ws Hx _ IH]; [done|].
  unfold stripSpace in *. simpl. by rewrite Hx.
Qed.

Lemma dropWhile_app_space (ln : JSString) (c : N) :
  isSpace c = true ->
  dropWhile isSpace (ln ++ [c])
  = match dropWhile isSpace ln with [] => [] | d => d ++ [c] end.
Proof.
  intros Hc. induction ln as [|x ln IH]; simpl; [by rewrite Hc|].
  destruct (isSpace x); [exact IH|done].
Qed.

Lemma isCommentLine_app_space (ln : JSString) (c : N) :
  isSpace c = true -> isCommentLine (ln ++ [c]) = isCommentLine ln.
Proof.
  intros Hc. unfold isCommentLine. rewrite dropWhile_app_space by done.
  by destruct (dropWhile isSpace ln).
Qed.

(** Spaces in front of a text. *)
Lemma normLines_leading (t cur : JSString) :
  Forall (fun u => isSpace u = true) cur ->
  normLines (splitLines cur t) = normLines (splitLines [] t).
Proof.
  intros Hcur.
  destruct (first_line t) as (ln & rest & -> & Hln & Hrest).
  rewrite !splitLines_line by done.
  assert (Forall (fun u => isSpace u = true) (rev cur)) as Hrev.
  { by apply Forall_rev. }
  destruct rest as [|c tl]; simpl;
    rewrite isCommentLine_spaces_app by done;
    destruct (isCommentLine ln); simpl; try done;
    by rewrite stripSpace_app, stripSpace_spaces.
Qed.

Lemma specNormalize_dropWhile (t : JSString) :
  specNormalize (dropWhile isSpace t) = specNormalize t.
Proof.
  unfold specNormalize. induction t as [|c t IH]; [done|].
  simpl. destruct (isSpace c) eqn:Hs; [|done].
  rewrite IH. destruct (isLineTerminator c); [done|].
  symmetry. apply normLines_leading. by constructor.
Qed.

(** Spaces at the end of a text. *)
Lemma normLines_spaces (ws cur : JSString) :
  Forall (fun u => isSpace u = true) ws ->
  normLines (splitLines cur ws) = normLines [rev cur].
Proof.
  intros Hws. revert cur. induction Hws as [|c ws Hc _ IH]; intros cur; [done|].
  cbn [splitLines]. destruct (isLineTerminator c).
  - cbn [List.filter].
    destruct (isCommentLine (rev cur)); simpl; rewrite (IH []); simpl;
      by rewrite ?app_nil_r.
  - rewrite IH. simpl. rewrite isCommentLine_app_space by done.
    destruct (isCommentLine (rev cur)); simpl; [done|].
    rewrite stripSpace_app, (stripSpace_spaces [c]) by by constructor.
    by rewrite !app_nil_r.
Qed.

Lemma normLines_trailing (t ws cur : JSString) :
  Forall (fun u => isSpace u = true) ws ->
  normLines (splitLines cur (t ++ ws)) = normLines (splitLines cur t).
Proof.
  intros Hws. revert cur. induction t as [|c t IH]; intros cur.
  - simpl. by apply normLines_spaces.
  - cbn [app splitLines]. destruct (isLineTerminator c); [|apply IH].
    cbn [List.filter].
    destruct (negb (isCommentLine (rev cur))); simpl; by rewrite IH.
Qed.

Lemma dropWhile_split (p : N -> bool) (s : JSString) :
  s = takeWhile p s ++ dropWhile p s
  /\ Forall (fun u => p u = true) (takeWhile p s).
Proof.
  induction s as [|c s [IH1 IH2]]; [done|].
  simpl. destruct (p c) eqn:Hc; [|done].
  split; [simpl; congruence|by constructor].
Qed.

Lemma specNormalize_trim (t : JSString) :
  specNormalize (trim t) = specNormalize t.
Proof.
  unfold trim. rewrite <- (specNormalize_dropWhile t).
  generalize (dropWhile isSpace t). clear t. intros t.
  destruct (dropWhile_split isSpace (rev t)) as [E Hws].
  apply (f_equal (@rev N)) in E. rewrite rev_involutive, rev_app_distr in E.
  rewrite E at 2. unfold specNormalize.
  rewrite normLines_trailing; [done|]. by apply Forall_rev.
Qed.

(** Where every comment line of the trimmed text has its [#] in the first
    column, the fingerprint is the normalisation of the specification. *)
Lemma textFingerprint_first_column_comments (text : JSString) :
  commentsInFirstColumn (trim text) ->
  textFingerprint text = specNormalize text.
Proof.
  intros H. unfold textFingerprint, replaceAll.
  rewrite (replaceGo_agrees (length (trim text))) by done.
  apply specNormalize_trim.
Qed.

(** C6 on the code.  The text [x], a line feed, and the comment line
    [ #c], indented by one blank: the normalisation of the specification
    removes the comment line, the fingerprint keeps [#c].  The same
    comment at the start of the line is removed.  So two texts that differ
    only in a comment line have different fingerprints. *)
Theorem textFingerprint_keeps_indented_comment :
  let text := js "x" ++ [LF] ++ js " #c" in
  textFingerprint text = js "x#c"
  /\ specNormalize text = js "x"
  /\ textFingerprint (js "x") = js "x"
  /\ specNormalize (js "x") = js "x"
  /\ textFingerprint (js "x" ++ [LF] ++ js "#c") = js "x"
  /\ textFingerprint text <> specNormalize text
  /\ textFingerprint text <> textFingerprint (js "x").
Proof. repeat split; discriminate. Qed.

End FingerprintFacts.

(* ===================================================================== *)
(** * More on the session                                                 *)
(* ===================================================================== *)

Section SessionWire.

Import ServerSession Wire.

Lemma run_app (s : Session) (t1 t2 : list Event) :
  run s (t1 ++ t2) = run (run s t1) t2.
Proof. apply fold_left_app. Qed.

Lemma run_data_open (chunks : list JSString) (s : Session) :
  destroyed (socket s) = false ->
  run s (List.map SocketData chunks) = feed s chunks
  /\ destroyed (socket (feed s chunks)) = false.
Proof.
  revert s. induction chunks as [|c cs IH]; intros s Hs; [done|].
  simpl. unfold onSocketData. rewrite Hs.
  apply IH. unfold handleResponse. by destruct (negb (endsWith c LF)).
Qed.

Lemma feed_buffering (chunks : list JSString) (s : Session) :
  Forall (fun c => endsWith c LF = false) chunks ->
  currentMessageBuffer (feed s chunks) = currentMessageBuffer s ++ concat chunks
  /\ emitted (feed s chunks) = emitted s
  /\ promises (feed s chunks) = promises s
  /\ onceOnLineReceived (feed s chunks) = onceOnLineReceived s.
Proof.
  intros H. revert s. induction H as [|c cs Hc _ IH]; intros s.
  { simpl. by rewrite app_nil_r. }
  change (feed s (c :: cs)) with (feed (handleResponse s c) cs).
  destruct (IH (handleResponse s c)) as (-> & -> & -> & ->).
  destruct (handleResponse_buffering s c Hc) as (-> & -> & -> & ->).
  by rewrite <- app_assoc.
Qed.

Lemma sendCommandWithResponse_answered
    (s : Session) (command : JSString) (chunks : list JSString) (last : JSString) :
  destroyed (socket s) = false ->
  Forall (fun c => endsWith c LF = false) chunks ->
  endsWith last LF = true ->
  let s1 := fst (sendCommandWithResponse s command) in
  let p := snd (sendCommandWithResponse s command) in
  let s2 := run s1 (List.map SocketData (chunks ++ [last])) in
  promises s1 !! p = Some Pending
  /\ promises (run s1 (List.map SocketData chunks)) !! p = Some Pending
  /\ promises s2 !! p
     = Some (Fulfilled (currentMessageBuffer s ++ concat chunks ++ last))
  /\ onceOnLineReceived s2 = None
  /\ currentMessageBuffer s2 = [].
Proof.
  intros Hopen Hchunks Hlast s1 p s2.
  assert (destroyed (socket s1) = false) as Hopen1.
  { subst s1. simpl. unfold socket_write. by rewrite Hopen. }
  assert (promises s1 !! p = Some Pending) as Hp.
  { subst s1 p. simpl. by rewrite lookup_app_r, Nat.sub_diag. }
  destruct (run_data_open chunks s1 Hopen1) as [Hrun Hopen2].
  destruct (feed_buffering chunks s1 Hchunks) as (Hb & _ & Hps & Hw).
  split; [done|]. split; [by rewrite Hrun, Hps|].
  subst s2. rewrite List.map_app, run_app, Hrun. simpl.
  unfold onSocketData. rewrite Hopen2.
  unfold handleResponse. rewrite Hlast. simpl.
  rewrite Hb, Hw, Hps. split; [|done].
  unfold callWaiter. subst s1 p. simpl. simpl in Hp.
  unfold resolvePromise. rewrite Hp.
  rewrite list_lookup_insert_eq by by eapply lookup_lt_Some.
  by rewrite <- app_assoc.
Qed.

Lemma sendCommandWithResponse_state (s : Session) (command : JSString) :
  let s1 := fst (sendCommandWithResponse s command) in
  socket s1 = socket_write (socket s) (command ++ [LF])
  /\ idCounter s1 = idCounter s
  /\ currentMessageBuffer s1 = currentMessageBuffer s
  /\ promises s1 = promises s ++ [Pending]
  /\ snd (sendCommandWithResponse s command) = length (promises s).
Proof. done. Qed.

Lemma feed_keeps_socket (chunks : list JSString) (s : Session) :
  socket (feed s chunks) = socket s /\ idCounter (feed s chunks) = idCounter s.
Proof.
  revert s. induction chunks as [|c cs IH]; intros s; [done|].
  change (feed s (c :: cs)) with (feed (handleResponse s c) cs).
  destruct (IH (handleResponse s c)) as [-> ->].
  unfold handleResponse. by destruct (negb (endsWith c LF)).
Qed.

(** X1.  The line a request waits for is everything buffered up to and
    including the first chunk that ends with a line feed, the units
    buffered before the request among them.  The promise
    [sendCommandWithResponse] awaits is pending until then and is
    fulfilled with that line; the promise it returns is pending until then
    and settles with [JSON.parse] of that line: fulfilled with the value
    when the line parses, rejected with the parser's error when it does
    not. *)
Theorem request_fulfilled_by_next_line
    {Target : Type} (JSON_parse : JSString -> Target + JSString)
    (s : Session) (command : JSString) (chunks : list JSString) (last : JSString) :
  destroyed (socket s) = false ->
  Forall (fun c => endsWith c LF = false) chunks ->
  endsWith last LF = true ->
  let s1 := fst (sendCommandWithResponse s command) in
  let p := snd (sendCommandWithResponse s command) in
  let s2 := run s1 (List.map SocketData (chunks ++ [last])) in
  let line := currentMessageBuffer s ++ concat chunks ++ last in
  promises s1 !! p = Some Pending
  /\ promises (run s1 (List.map SocketData chunks)) !! p = Some Pending
  /\ promises s2 !! p = Some (Fulfilled line)
  /\ futureState JSON_parse s1 p = FPending
  /\ futureState JSON_parse (run s1 (List.map SocketData chunks)) p = FPending
  /\ futureState JSON_parse s2 p
     = match JSON_parse line with
       | inl v => FFulfilled v
       | inr syntaxError => FRejected syntaxError
       end
  /\ onceOnLineReceived s2 = None
  /\ currentMessageBuffer s2 = [].
Proof.
  intros Hopen Hchunks Hlast s1 p s2 line.
  destruct (sendCommandWithResponse_answered s command chunks last Hopen Hchunks Hlast)
    as (H1 & H2 & H3 & H4 & H5).
  fold s1 p in H1, H2. fold s1 p s2 line in H3. fold s1 s2 in H4, H5.
  split_and!; try done.
  - unfold futureState. by rewrite H1.
  - unfold futureState. by rewrite H2.
  - unfold futureState. by rewrite H3.
Qed.

(** The answer [{}] arrives in two chunks.  With an empty buffer the
    returned promise is fulfilled; with [stale] left in the buffer from
    before the request, the line is [stale{}] and the returned promise is
    rejected. *)
Lemma request_fulfilled_by_next_line_witness :
  (let s1 := fst (sendCommandWithResponse newSession (js "{}")) in
   futureState parseEmptyObject
     (run s1 (List.map SocketData ([js "{"] ++ [js "}" ++ [LF]]))) 0
   = FFulfilled tt)
  /\ (let s := handleResponse newSession (js "stale") in
      let s1 := fst (sendCommandWithResponse s (js "{}")) in
      promises (run s1 (List.map SocketData ([js "{"] ++ [js "}" ++ [LF]]))) !! 0
      = Some (Fulfilled (js "stale" ++ js "{" ++ js "}" ++ [LF]))
      /\ futureState parseEmptyObject
           (run s1 (List.map SocketData ([js "{"] ++ [js "}" ++ [LF]]))) 0
         = FRejected (js "SyntaxError")).
Proof.
  split.
  - destruct (request_fulfilled_by_next_line parseEmptyObject newSession
                (js "{}") [js "{"] (js "}" ++ [LF])) as (_ & _ & _ & _ & _ & H & _).
    + reflexivity.
    + by repeat constructor.
    + reflexivity.
    + exact H.
  - destruct (request_fulfilled_by_next_line parseEmptyObject
                (handleResponse newSession (js "stale"))
                (js "{}") [js "{"] (js "}" ++ [LF])) as (_ & _ & H3 & _ & _ & H & _).
    + reflexivity.
    + by repeat constructor.
    + reflexivity.
    + split; [exact H3|exact H].
Defined.

(** ** Promises over traces *)




Lemma resolvePromise_fulfilled_inv (q p : nat) (m line : JSString)
    (ps : list PromiseState) :
  resolvePromise q m ps !! p = Some (Fulfilled line) ->
  ps !! p = Some (Fulfilled line) \/ line = m.
Proof.
  unfold resolvePromise. destruct (ps !! q) as [[]|] eqn:Hq; try by left.
  destruct (decide (q = p)) as [->|Hne].
  - rewrite list_lookup_insert_eq by by eapply lookup_lt_Some.
    intros [= ->]. by right.
  - rewrite list_lookup_insert_ne by done. by left.
Qed.

Lemma resolvePromise_count (q : nat) (m : JSString) (ps : list PromiseState) :
  length (List.filter isFulfilled (resolvePromise q m ps))
  <= S (length (List.filter isFulfilled ps)).
Proof.
  unfold resolvePromise. destruct (ps !! q) as [[]|] eqn:Hq; try lia.
  pose proof (lookup_lt_Some _ _ _ Hq) as Hlt.
  rewrite (insert_take_drop ps q _ Hlt).
  rewrite <- (take_drop_middle ps q Pending Hq) at 3.
  rewrite !List.filter_app, !length_app. simpl. lia.
Qed.

Lemma emitted_snoc_other (s : list LogLine) (l : LogLine) :
  (forall m, l <> LogReceived m) ->
  omap (fun l => match l with LogReceived m => Some m | _ => None end) (s ++ [l])
  = omap (fun l => match l with LogReceived m => Some m | _ => None end) s.
Proof.
  intros H. rewrite omap_app. simpl. destruct l; try by rewrite app_nil_r.
  by destruct (H message).
Qed.

Lemma step_emitted (s : Session) (e : Event) :
  emitted (step s e) = emitted s
  \/ exists chunk,
       e = SocketData chunk /\ destroyed (socket s) = false
       /\ endsWith chunk LF = true
       /\ emitted (step s e) = emitted s ++ [currentMessageBuffer s ++ chunk]
       /\ promises (step s e)
          = callWaiter (onceOnLineReceived s) (currentMessageBuffer s ++ chunk)
                       (promises s).
Proof.
  destruct e as [chunk|m| |command| |command]; simpl; try by left.
  - unfold onSocketData. destruct (destroyed (socket s)) eqn:Hd; [by left|].
    destruct (endsWith chunk LF) eqn:Hc.
    + right. exists chunk. repeat split; try done.
      * by apply handleResponse_emitting.
      * unfold handleResponse. by rewrite Hc.
    + left. by apply handleResponse_buffering.
  - left. unfold emitted. simpl. by apply emitted_snoc_other.
  - left. unfold emitted. simpl. by apply emitted_snoc_other.
  - left. unfold emitted. simpl. by apply emitted_snoc_other.
Qed.

Lemma step_promises_other (s : Session) (e : Event) :
  emitted (step s e) = emitted s ->
  (forall chunk, e = SocketData chunk -> destroyed (socket s) = false ->
                 endsWith chunk LF = false) ->
  promises (step s e) = promises s
  \/ promises (step s e) = promises s ++ [Pending].
Proof.
  intros _ Hdata. destruct e as [chunk|m| |command| |command]; simpl;
    try (by left); try (by right).
  unfold onSocketData. destruct (destroyed (socket s)) eqn:Hd; [by left|].
  left. unfold handleResponse. by rewrite (Hdata chunk eq_refl eq_refl).
Qed.

(** Every fulfilled promise holds a message that was emitted, and there
    are at most as many fulfilled promises as emitted messages: a message
    goes to at most one request. *)
Theorem fulfilled_only_by_emitted (trace : list Event) :
  let s := run newSession trace in
  (forall p line, promises s !! p = Some (Fulfilled line) -> line ∈ emitted s)
  /\ length (List.filter isFulfilled (promises s)) <= length (emitted s).
Proof.
  simpl.
  apply (run_invariant
           (fun s => (forall p line, promises s !! p = Some (Fulfilled line)
                                     -> line ∈ emitted s)
                     /\ length (List.filter isFulfilled (promises s))
                        <= length (emitted s))).
  2:{ split; [|simpl; lia]. intros p line H. discriminate H. }
  intros s e [Hin Hcount].
  destruct (step_emitted s e) as [E|(chunk & -> & Hd & Hc & E & Hps)].
  - rewrite E.
    assert (promises (step s e) = promises s
            \/ promises (step s e) = promises s ++ [Pending]) as [->| ->].
    { apply step_promises_other; [done|]. intros chunk -> Hd.
      destruct (endsWith chunk LF) eqn:Hc; [|done].
      simpl in E. unfold onSocketData in E. rewrite Hd in E.
      destruct (handleResponse_emitting s chunk Hc) as (_ & E' & _).
      rewrite E' in E. apply (f_equal length) in E.
      rewrite length_app in E. simpl in E. lia. }
    + done.
    + split.
      * intros p line [H|[_ H]]%lookup_app_Some; [by eapply Hin|].
        by destruct (p - length (promises s)) as [|[]].
      * rewrite List.filter_app, length_app. simpl. lia.
  - rewrite E, Hps. split.
    + intros p line H. apply elem_of_app. unfold callWaiter in H.
      destruct (onceOnLineReceived s) as [q|]; [|left; by eapply Hin].
      apply resolvePromise_fulfilled_inv in H as [H| ->]; [left; by eapply Hin|].
      right. by apply list_elem_of_singleton.
    + rewrite length_app. simpl. unfold callWaiter.
      destruct (onceOnLineReceived s) as [q|]; [|lia].
      pose proof (resolvePromise_count q (currentMessageBuffer s ++ chunk) (promises s)).
      lia.
Qed.

Lemma fulfilled_only_by_emitted_witness :
  js "a" ++ [LF]
  ∈ emitted (run newSession [CallAwaitResponse; SocketData (js "a" ++ [LF])]).
Proof.
  apply (proj1 (fulfilled_only_by_emitted
                  [CallAwaitResponse; SocketData (js "a" ++ [LF])]) 0).
  reflexivity.
Defined.

(** ** What was received *)

Lemma endsWith_app_line (b m : JSString) (c : N) :
  endsWith m c = true -> endsWith (b ++ m) c = true.
Proof.
  intros [body ->]%endsWith_true. rewrite app_assoc, endsWith_snoc.
  apply N.eqb_refl.
Qed.

Lemma endsWith_app_false (b m : JSString) (c : N) :
  endsWith b c = false -> endsWith m c = false -> endsWith (b ++ m) c = false.
Proof.
  intros Hb Hm. destruct m as [|x m _] using rev_ind.
  - by rewrite app_nil_r.
  - rewrite app_assoc, endsWith_snoc. by rewrite endsWith_snoc in Hm.
Qed.

Lemma handleResponse_received (s : Session) (m : JSString) :
  Forall (fun f => endsWith f LF = true) (emitted s) ->
  endsWith (currentMessageBuffer s) LF = false ->
  Forall (fun f => endsWith f LF = true) (emitted (handleResponse s m))
  /\ endsWith (currentMessageBuffer (handleResponse s m)) LF = false.
Proof.
  intros He Hb. destruct (endsWith m LF) eqn:Hm.
  - destruct (handleResponse_emitting s m Hm) as (-> & -> & _).
    split; [|done]. apply Forall_app. split; [done|].
    constructor; [|done]. by apply endsWith_app_line.
  - destruct (handleResponse_buffering s m Hm) as (-> & -> & _).
    split; [done|]. by apply endsWith_app_false.
Qed.

(** Whatever chunks arrive, the emitted messages followed by the buffer
    are exactly the units received, in order; every emitted message ends
    with a line feed and the buffer never does. *)
Theorem received_units_accounted (chunks : list JSString) :
  let s := feed newSession chunks in
  concat (emitted s) ++ currentMessageBuffer s = concat chunks
  /\ Forall (fun f => endsWith f LF = true) (emitted s)
  /\ endsWith (currentMessageBuffer s) LF = false.
Proof.
  simpl. split; [by rewrite feed_keeps_units|].
  assert (forall s,
             Forall (fun f => endsWith f LF = true) (emitted s)
             /\ endsWith (currentMessageBuffer s) LF = false ->
             Forall (fun f => endsWith f LF = true) (emitted (feed s chunks))
             /\ endsWith (currentMessageBuffer (feed s chunks)) LF = false) as H.
  { induction chunks as [|c cs IH]; intros s [He Hb]; [done|].
    apply (IH (handleResponse s c)). by apply handleResponse_received. }
  apply H. split; [constructor|done].
Qed.

(** ** After the close *)

(** What a closed session keeps under a call: the socket, the emitted
    messages and the buffer; its promises are those it had, followed by
    pending ones. *)
Lemma call_closed_frozen (stringify : Request -> JSString) (s0 s : Session)
    (c : Call) (k : nat) :
  destroyed (socket s) = true
  /\ socket s = socket s0
  /\ emitted s = emitted s0
  /\ currentMessageBuffer s = currentMessageBuffer s0
  /\ idCounter s = idCounter s0 + k
  /\ (exists n, promises s = promises s0 ++ replicate n Pending) ->
  let s' := call stringify s c in
  destroyed (socket s') = true
  /\ socket s' = socket s0
  /\ emitted s' = emitted s0
  /\ currentMessageBuffer s' = currentMessageBuffer s0
  /\ idCounter s' = idCounter s0 + (k + retrieveSliceCalls [c])
  /\ (exists n, promises s' = promises s0 ++ replicate n Pending).
Proof.
  intros (Hd & Hk & He & Hb & Hi & n & Hp).
  assert (socket_destroy (socket s) = socket s) as Hsd.
  { unfold socket_destroy. by rewrite Hd. }
  assert (forall d, socket_write (socket s) d = socket s) as Hsw.
  { intros d. unfold socket_write. by rewrite Hd. }
  assert (exists n', promises s ++ [Pending] = promises s0 ++ replicate n' Pending)
    as Hp'.
  { exists (S n). rewrite Hp, <- app_assoc. f_equal.
    change [Pending] with (replicate 1 Pending).
    rewrite <- replicate_add. f_equal. lia. }
  destruct c as [[chunk|m| |command| |command]|filename content]; simpl;
    unfold onSocketData; rewrite ?Hd, ?Hsd, ?Hsw;
    split_and!; try done; try (by exists n); try exact Hp';
    try (unfold retrieveSliceCalls; simpl; lia).
  all: unfold emitted; simpl; rewrite ?emitted_snoc_other; try done.

Qed.

Lemma retrieveSliceCalls_snoc (trace : list Call) (c : Call) :
  retrieveSliceCalls (trace ++ [c]) = retrieveSliceCalls trace + retrieveSliceCalls [c].
Proof. unfold retrieveSliceCalls. by rewrite List.filter_app, length_app. Qed.

(** X5.  Once the socket is destroyed, nothing is received and nothing is
    written any more.  Whatever arrives on the socket, and whichever of
    [destroy], [sendCommand], [awaitResponse], [sendCommandWithResponse]
    and [retrieveSlice] is called, the socket, the emitted messages and
    the buffer stay as they are, and no promise settles: the promises are
    those there were, followed by pending ones, so that every
    [retrieveSlice] stays at its first [await].  The counter does move: by
    one for each call of [retrieveSlice].  [handleResponse] itself does
    not look at the socket: called directly with a message that ends with
    the line feed, it emits on the closed session too. *)
Theorem closed_session_is_silent (stringify : Request -> JSString)
    (s : Session) (trace : list Call) :
  destroyed (socket s) = true ->
  let s' := calls stringify s trace in
  socket s' = socket s
  /\ emitted s' = emitted s
  /\ currentMessageBuffer s' = currentMessageBuffer s
  /\ idCounter s' = idCounter s + retrieveSliceCalls trace
  /\ (exists n, promises s' = promises s ++ replicate n Pending)
  /\ (forall m, emitted (handleResponse s' (m ++ [LF]))
                = emitted s ++ [currentMessageBuffer s ++ m ++ [LF]]).
Proof.
  intros Hd s'.
  assert (destroyed (socket s') = true
          /\ socket s' = socket s
          /\ emitted s' = emitted s
          /\ currentMessageBuffer s' = currentMessageBuffer s
          /\ idCounter s' = idCounter s + retrieveSliceCalls trace
          /\ (exists n, promises s' = promises s ++ replicate n Pending))
    as (_ & H1 & H2 & H3 & H4 & H5).
  { subst s'. induction trace as [|c trace IH] using rev_ind.
    - simpl. split_and!; try done;
        try (unfold retrieveSliceCalls; simpl; lia).
      exists 0. simpl. by rewrite app_nil_r.
    - unfold calls. rewrite fold_left_app. simpl.
      rewrite retrieveSliceCalls_snoc.
      by apply (call_closed_frozen stringify s). }
  split_and!; try done.
  intros m.
  destruct (handleResponse_emitting s' (m ++ [LF])) as (_ & -> & _).
  { by rewrite endsWith_snoc. }
  by rewrite H2, H3.
Qed.

(** A session is closed, and then: a command is sent, a slice is asked
    for, and data is reported by the socket. *)
Lemma closed_session_is_silent_witness :
  let s := run newSession [CallSendCommand (js "a"); CallDestroy] in
  let s' := calls (fun _ => js "{}") s
                  [SessionEvent (CallSendCommand (js "b"));
                   CallRetrieveSlice (js "f.R") (js "x");
                   SessionEvent (SocketData (js "x" ++ [LF]))] in
  written (socket s') = [js "a" ++ [LF]]
  /\ emitted s' = []
  /\ idCounter s' = 1
  /\ promises s' = [Pending].
Proof.
  destruct (closed_session_is_silent (fun _ => js "{}")
              (run newSession [CallSendCommand (js "a"); CallDestroy])
              [SessionEvent (CallSendCommand (js "b"));
               CallRetrieveSlice (js "f.R") (js "x");
               SessionEvent (SocketData (js "x" ++ [LF]))] eq_refl)
    as (H1 & H2 & _ & H4 & _).
  split_and!; [by rewrite H1|by rewrite H2|by rewrite H4|reflexivity].
Defined.

(** ** What was written *)

Lemma commandsOf_snoc (trace : list Event) (e : Event) :
  commandsOf (trace ++ [e])
  = commandsOf trace ++ match e with
                        | CallSendCommand c => [c]
                        | CallSendCommandWithResponse c => [c]
                        | _ => []
                        end.
Proof. unfold commandsOf. rewrite omap_app. by destruct e. Qed.

Lemma written_invariant (trace : list Event) :
  let k := socket (run newSession trace) in
  written k `prefix_of` List.map (fun c => c ++ [LF]) (commandsOf trace)
  /\ (destroyed k = false ->
      written k = List.map (fun c => c ++ [LF]) (commandsOf trace))
  /\ (forallb (fun e => negb (closes e)) trace = true -> destroyed k = false).
Proof.
  induction trace as [|e trace IH] using rev_ind.
  { simpl. split; [apply prefix_nil|done]. }
  simpl in *. rewrite run_snoc, commandsOf_snoc, List.map_app, forallb_app.
  destruct IH as (Hpre & Heq & Hopen).
  set (s := run newSession trace) in *.
  assert (forall k', destroyed k' = destroyed (socket s)
                      -> written k' = written (socket s)
                      -> written k' `prefix_of` List.map (fun c => c ++ [LF]) (commandsOf trace)
                         /\ (destroyed k' = false ->
                             written k' = List.map (fun c => c ++ [LF]) (commandsOf trace))
                         /\ (forallb (fun e => negb (closes e)) trace = true
                             -> destroyed k' = false)) as Hsame.
  { intros k' -> ->. done. }
  assert (forall k' b, destroyed k' = true
                      -> written k' = written (socket s)
                      -> written k' `prefix_of` List.map (fun c => c ++ [LF]) (commandsOf trace)
                         /\ (destroyed k' = false ->
                             written k' = List.map (fun c => c ++ [LF]) (commandsOf trace))
                         /\ (forallb (fun e => negb (closes e)) trace && b = true
                             -> b = false -> destroyed k' = false)) as Hclose.
  { intros k' b Hd ->. rewrite Hd. split; [done|]. split; [done|].
    intros H ->. by rewrite andb_false_r in H. }
  assert (forall c,
             written (socket_write (socket s) (c ++ [LF]))
               `prefix_of` List.map (fun c => c ++ [LF]) (commandsOf trace) ++ [c ++ [LF]]
             /\ (destroyed (socket_write (socket s) (c ++ [LF])) = false ->
                 written (socket_write (socket s) (c ++ [LF]))
                 = List.map (fun c => c ++ [LF]) (commandsOf trace) ++ [c ++ [LF]])
             /\ (forallb (fun e => negb (closes e)) trace && true = true
                 -> destroyed (socket_write (socket s) (c ++ [LF])) = false)) as Hsend.
  { intros c. unfold socket_write. rewrite andb_true_r.
    destruct (destroyed (socket s)) eqn:Hd; simpl.
    - rewrite Hd. split; [by apply prefix_app_r|]. split; [done|]. exact Hopen.
    - rewrite Heq by done. by repeat split. }
  destruct e as [chunk|m| |command| |command]; simpl.
  - rewrite app_nil_r, andb_true_r. apply Hsame.
    + unfold onSocketData. destruct (destroyed (socket s)) eqn:Hd; [done|].
      unfold handleResponse. by destruct (negb (endsWith chunk LF)).
    + unfold onSocketData. destruct (destroyed (socket s)) eqn:Hd; [done|].
      unfold handleResponse. by destruct (negb (endsWith chunk LF)).
  - rewrite app_nil_r.
    destruct (Hclose (socket_destroy (socket s)) false) as (? & ? & H3).
    { apply socket_destroy_destroyed. }
    { unfold socket_destroy. by destruct (destroyed (socket s)). }
    repeat split; try done. intros Hall. by apply H3.
  - rewrite app_nil_r.
    destruct (Hclose (socket_destroy (socket s)) false) as (? & ? & H3).
    { apply socket_destroy_destroyed. }
    { unfold socket_destroy. by destruct (destroyed (socket s)). }
    repeat split; try done. intros Hall. by apply H3.
  - apply Hsend.
  - rewrite app_nil_r, andb_true_r. by apply Hsame.
  - apply Hsend.
Qed.

(** The socket gets the commands that were sent before it was closed, in
    the order of the calls, each followed by one line feed, and nothing
    else; without a close it gets all of them.  Commands that hold no line
    feed are written as frames. *)
Theorem written_commands_in_order (trace : list Event) :
  let k := socket (run newSession trace) in
  written k `prefix_of` List.map (fun c => c ++ [LF]) (commandsOf trace)
  /\ (forallb (fun e => negb (closes e)) trace = true ->
      written k = List.map (fun c => c ++ [LF]) (commandsOf trace))
  /\ (Forall (fun c => LF ∉ c) (commandsOf trace) -> Forall isFrame (written k)).
Proof.
  destruct (written_invariant trace) as (Hpre & Heq & Hopen). simpl in *.
  split; [done|]. split; [by intros H; apply Heq, Hopen|].
  intros Hc. destruct Hpre as [rest Hrest].
  assert (Forall isFrame (List.map (fun c => c ++ [LF]) (commandsOf trace))) as Hall.
  { apply Forall_forall. intros f [c [-> Hin]]%list_elem_of_fmap.
    exists c. split; [done|]. by eapply Forall_forall in Hc. }
  rewrite Hrest in Hall. by apply Forall_app in Hall as [? _].
Qed.

Lemma written_commands_in_order_witness :
  written (socket (run newSession [CallSendCommand (js "a"); CallAwaitResponse;
                                   CallSendCommandWithResponse (js "b")]))
  = [js "a" ++ [LF]; js "b" ++ [LF]].
Proof.
  destruct (written_commands_in_order
              [CallSendCommand (js "a"); CallAwaitResponse;
               CallSendCommandWithResponse (js "b")]) as (_ & H & _).
  by apply H.
Defined.

End SessionWire.

(* ===================================================================== *)
(** * A call of [retrieveSlice]                                           *)
(* ===================================================================== *)

Section RetrieveSliceAlone.

Import ServerSession Slice Wire.

Variable stringify : Request -> JSString.
Variable stringifyIds : list NodeId -> JSString.
Variable parseAnalysis : JSString -> option RNode.
Variable parseSlice : JSString -> option SliceResponse.

(** One exchange: the request goes out, the answer comes in, and the
    session is ready for the next request. *)
Lemma exchange (s : Session) (command : JSString) (chunks : list JSString)
    (last : JSString) :
  destroyed (socket s) = false ->
  Forall (fun c => endsWith c LF = false) chunks ->
  endsWith last LF = true ->
  let s2 := run (fst (sendCommandWithResponse s command))
                (List.map SocketData (chunks ++ [last])) in
  let line := currentMessageBuffer s ++ concat chunks ++ last in
  awaited s2 (snd (sendCommandWithResponse s command)) = Some line
  /\ socket s2 = mkSocket false (written (socket s) ++ [command ++ [LF]])
  /\ idCounter s2 = idCounter s
  /\ currentMessageBuffer s2 = []
  /\ onceOnLineReceived s2 = None
  /\ promises s2 = promises s ++ [Fulfilled line].
Proof.
  intros Hopen Hchunks Hlast s2 line.
  destruct (sendCommandWithResponse_answered s command chunks last Hopen Hchunks Hlast)
    as (_ & _ & Hp & Hw & Hb).
  fold s2 in Hp, Hw, Hb. fold line in Hp.
  destruct (sendCommandWithResponse_state s command) as (Hk & Hi & Hb1 & Hps & Hsnd).
  set (s1 := fst (sendCommandWithResponse s command)) in *.
  assert (destroyed (socket s1) = false) as Hopen1.
  { rewrite Hk. unfold socket_write. by rewrite Hopen. }
  assert (s2 = feed s1 (chunks ++ [last])) as E.
  { subst s2. by apply run_data_open. }
  destruct (feed_keeps_socket (chunks ++ [last]) s1) as [Hk2 Hi2].
  rewrite <- E in Hk2, Hi2.
  split; [unfold awaited; by rewrite Hp|].
  split; [rewrite Hk2, Hk; unfold socket_write; by rewrite Hopen|].
  split; [by rewrite Hi2|]. split; [done|]. split; [done|].
  (* the promises *)
  rewrite E, feed_app. simpl.
  destruct (feed_buffering chunks s1 Hchunks) as (Hbuf & _ & Hps2 & Hw2).
  unfold handleResponse. rewrite Hlast. simpl.
  rewrite Hps2, Hw2, Hbuf, Hps, Hb1. subst s1. simpl.
  unfold resolvePromise. rewrite lookup_app_r, Nat.sub_diag by done. simpl.
  rewrite <- app_assoc. fold line.
  apply list_eq. intros i.
  destruct (decide (i = length (promises s))) as [->|Hne].
  - rewrite list_lookup_insert_eq by (rewrite length_app; simpl; lia).
    by rewrite lookup_app_r, Nat.sub_diag.
  - rewrite list_lookup_insert_ne by done.
    destruct (decide (i < length (promises s))).
    + by rewrite !lookup_app_l.
    + rewrite !lookup_app_r by lia.
      by destruct (i - length (promises s)) as [|[]] eqn:?; [lia|..].
Qed.

(** A call of [retrieveSlice] on an open session, with nothing else going
    on and two answers that parse: the two requests are written in order
    with the identifiers [idCounter] and [idCounter + 1], each answer goes
    to the request before it, no waiter is overwritten, and the result is
    the reconciliation of the second answer's slice with the first
    answer's AST.  The first answer is read together with whatever the
    buffer held when the call began. *)
Theorem retrieveSlice_alone
    (filename content criterion : JSString)
    (chunks1 chunks2 : list JSString) (last1 last2 : JSString)
    (s : Session) (ast : RNode) (r : SliceResponse) :
  destroyed (socket s) = false ->
  Forall (fun c => endsWith c LF = false) chunks1 ->
  endsWith last1 LF = true ->
  Forall (fun c => endsWith c LF = false) chunks2 ->
  endsWith last2 LF = true ->
  parseAnalysis (currentMessageBuffer s ++ concat chunks1 ++ last1) = Some ast ->
  parseSlice (concat chunks2 ++ last2) = Some r ->
  exists s',
    retrieveSliceAlone stringify stringifyIds parseAnalysis parseSlice
      filename content criterion (chunks1 ++ [last1]) (chunks2 ++ [last2]) s
    = Some (s', retrieveSliceElements ast (sliceResult r), reconstructCode r)
    /\ idCounter s' = idCounter s + 2
    /\ written (socket s')
       = written (socket s)
         ++ [stringify (RequestFileAnalysis (idCounter s) filename content) ++ [LF];
             stringify (RequestSlice (S (idCounter s)) criterion) ++ [LF]]
    /\ onceOnLineReceived s' = None
    /\ currentMessageBuffer s' = []
    /\ promises s'
       = promises s
         ++ [Fulfilled (currentMessageBuffer s ++ concat chunks1 ++ last1);
             Fulfilled (concat chunks2 ++ last2)].
Proof.
  intros Hopen Hc1 Hl1 Hc2 Hl2 Hp1 Hp2.
  unfold retrieveSliceAlone, retrieveSliceBegin.
  destruct (takeId s) as [sa id1] eqn:Ha. injection Ha as <- <-.
  set (sa := mkSession (socket s) (S (idCounter s)) (currentMessageBuffer s)
                       (onceOnLineReceived s) (outputChannel s) (promises s)).
  set (c1 := stringify (RequestFileAnalysis (idCounter s) filename content)).
  destruct (exchange sa c1 chunks1 last1 Hopen Hc1 Hl1)
    as (Haw & Hk & Hi & Hb & Hw & Hps).
  destruct (sendCommandWithResponse sa c1) as [s1 p1] eqn:E1. simpl in *.
  set (s2 := run s1 (List.map SocketData (chunks1 ++ [last1]))) in *.
  rewrite Haw. unfold retrieveSliceAnalysed. rewrite Hp1.
  destruct (takeId s2) as [sb id2] eqn:Hb2. injection Hb2 as <- <-.
  set (sb := mkSession (socket s2) (S (idCounter s2)) (currentMessageBuffer s2)
                       (onceOnLineReceived s2) (outputChannel s2) (promises s2)).
  set (c2 := stringify (RequestSlice (idCounter s2) criterion)).
  assert (destroyed (socket sb) = false) as Hopenb by (simpl; by rewrite Hk).
  destruct (exchange sb c2 chunks2 last2 Hopenb Hc2 Hl2)
    as (Haw2 & Hk2 & Hi2 & Hbb & Hw2 & Hps2).
  destruct (sendCommandWithResponse sb c2) as [s3 p2] eqn:E2. simpl in *.
  set (s4 := run s3 (List.map SocketData (chunks2 ++ [last2]))) in *.
  rewrite Haw2, Hb. simpl. unfold retrieveSliceFinish. rewrite Hp2.
  eexists. split; [reflexivity|]. simpl.
  split; [rewrite Hi2, Hi; lia|].
  split; [rewrite Hk2, Hk; simpl; subst c2; rewrite Hi; by rewrite <- app_assoc|].
  split; [done|]. split; [done|].
  rewrite Hps2, Hps, Hb. simpl. by rewrite <- app_assoc.
Qed.

End RetrieveSliceAlone.

(** The scenario of the specification, run through the session: the
    session is new, each answer arrives in two chunks. *)
Lemma retrieveSlice_alone_witness :
  let r1 := Slice.mkRange (Slice.mkPosition 1 1) (Slice.mkPosition 1 6) in
  let r2 := Slice.mkRange (Slice.mkPosition 2 1) (Slice.mkPosition 2 11) in
  let ast := Slice.mkRNode (js "n0") None
               [Slice.mkRNode (js "n1") (Some r1) [];
                Slice.mkRNode (js "n2") (Some r2) []] in
  let r := Wire.mkSliceResponse [js "n2"; js "n3"; js "n1"] (js "x") in
  exists s',
    Wire.retrieveSliceAlone (fun _ => js "request") (fun _ => js "ids")
      (fun _ => Some ast) (fun _ => Some r)
      (js "a.r") (js "x") (js "1:1")
      ([js "{"] ++ [js "}" ++ [LF]]) ([js "{"] ++ [js "}" ++ [LF]])
      ServerSession.newSession
    = Some (s', Slice.retrieveSliceElements ast (Wire.sliceResult r),
            Wire.reconstructCode r)
    /\ ServerSession.idCounter s' = 2.
Proof.
  intros r1 r2 ast r.
  destruct (retrieveSlice_alone (fun _ => js "request") (fun _ => js "ids")
              (fun _ => Some ast) (fun _ => Some r)
              (js "a.r") (js "x") (js "1:1")
              [js "{"] [js "{"] (js "}" ++ [LF]) (js "}" ++ [LF])
              ServerSession.newSession ast r)
    as (s' & H1 & H2 & _); try reflexivity.
  - by repeat constructor.
  - by repeat constructor.
  - exists s'. split; [exact H1|exact H2].
Defined.

(* ===================================================================== *)
(** * More on the reconciliation                                          *)
(* ===================================================================== *)

Section ReconciliationMore.

Import Slice Wire.

(** ** Repeated identifiers *)

(** Whatever the slice result is, the elements are the located
    identifiers of the result, each as often as the result lists it. *)
Theorem retrieveSlice_keeps_multiplicity (ast : RNode) (result : list NodeId) :
  let M := idToLocation ast in
  retrieveSliceElements ast result
  ≡ₚ omap (fun id => match M !! id with Some l => Some (id, l) | None => None end) result
  /\ length (retrieveSliceElements ast result)
     = length (List.filter (fun id => isNotUndefined (M !! id)) result)
  /\ StronglySorted startLe (retrieveSliceElements ast result).
Proof.
  intros M.
  assert (retrieveSliceElements ast result
          ≡ₚ omap (fun id => match M !! id with
                             | Some l => Some (id, l)
                             | None => None
                             end) result) as Hperm.
  { unfold retrieveSliceElements, sliceElementsOf.
    rewrite arraySort_perm. by rewrite located_elements. }
  split; [exact Hperm|]. split; [|apply arraySort_sorted].
  rewrite Hperm. clear Hperm.
  induction result as [|id result IH]; [done|].
  simpl. destruct (M !! id); simpl; [f_equal|]; exact IH.
Qed.

(** ** Nodes that share an identifier *)

Lemma visit_last (ns : list RNode) (m : gmap NodeId SourceRange) (id : NodeId) :
  fold_left (fun m n => match location n with
                        | Some l => <[info_id n := l]> m
                        | None => m
                        end) ns m !! id
  = match last (omap (fun n => if bool_decide (info_id n = id)
                               then location n else None) ns) with
    | Some l => Some l
    | None => m !! id
    end.
Proof.
  induction ns as [|n ns IH] using rev_ind; [done|].
  rewrite fold_left_app, omap_app. simpl.
  destruct (location n) as [l|] eqn:Hl.
  - case_bool_decide as Hid.
    + simpl. rewrite last_snoc. subst id. apply lookup_insert_eq.
    + simpl. rewrite app_nil_r. by rewrite lookup_insert_ne.
  - case_bool_decide; simpl; rewrite app_nil_r; exact IH.
Qed.

(** When several nodes carry the same identifier, the location of the one
    visited last is the one in the map; an identifier has no entry exactly
    when no node with it carries a location. *)
Theorem idToLocation_last_wins (ast : RNode) (id : NodeId) :
  idToLocation ast !! id = last (locationsOf id ast).
Proof.
  unfold idToLocation, visitAst, locationsOf. rewrite visit_last.
  rewrite lookup_empty. by destruct (last _).
Qed.

(** ** Equal start positions *)

Lemma compareStart_startsAt (x y : NodeId * SourceRange) (l c : Z) :
  startsAt l c x = true -> startsAt l c y = true -> compareStart x y = 0%Z.
Proof.
  unfold startsAt, compareStart.
  intros [H1 H2]%andb_true_iff [H3 H4]%andb_true_iff.
  apply Z.eqb_eq in H1, H2, H3, H4. rewrite H1, H2, H3, H4.
  by rewrite !Z.sub_diag.
Qed.

Lemma sortInsert_startsAt (x : NodeId * SourceRange)
    (els : list (NodeId * SourceRange)) (l c : Z) :
  List.filter (startsAt l c) (sortInsert compareStart x els)
  = List.filter (startsAt l c) (x :: els).
Proof.
  induction els as [|y els IH]; [done|].
  simpl. destruct (Z.leb_spec (compareStart x y) 0) as [Hle|Hgt]; [done|].
  simpl. rewrite IH. simpl.
  destruct (startsAt l c x) eqn:Hx, (startsAt l c y) eqn:Hy; try done.
  rewrite (compareStart_startsAt x y l c Hx Hy) in Hgt. lia.
Qed.

(** Elements that start at the same position keep the order in which the
    slice result lists them. *)
Theorem retrieveSlice_ties_in_result_order
    (ast : RNode) (result : list NodeId) (l c : Z) :
  List.filter (startsAt l c) (retrieveSliceElements ast result)
  = List.filter (startsAt l c)
      (omap (fun id => match idToLocation ast !! id with
                       | Some loc => Some (id, loc)
                       | None => None
                       end) result).
Proof.
  unfold retrieveSliceElements, sliceElementsOf. rewrite located_elements.
  generalize (omap (fun id => match idToLocation ast !! id with
                              | Some loc => Some (id, loc)
                              | None => None
                              end) result).
  intros els. induction els as [|x els IH]; [done|].
  simpl. fold (arraySort compareStart els).
  rewrite sortInsert_startsAt. simpl. by rewrite IH.
Qed.

End ReconciliationMore.

(* ===================================================================== *)
(** * Sessions over the life of the extension                             *)
(* ===================================================================== *)

Section LifecycleFacts.

Import ServerSession Extension Lifecycle.

Lemma step_stays_destroyed (s : Session) (e : Event) :
  destroyed (socket s) = true -> destroyed (socket (step s e)) = true.
Proof.
  intros Hd. destruct e as [chunk|m| |command| |command]; simpl;
    unfold onSocketData, socket_destroy, socket_write; by rewrite ?Hd.
Qed.

Lemma destroySession_all_destroyed (h : Handle Session) :
  onlyCurrentOpen h ->
  flowrSession (destroySession h) = None
  /\ length (sessions (destroySession h)) = length (sessions h)
  /\ forall i s, sessions (destroySession h) !! i = Some s ->
                 destroyed (socket s) = true.
Proof.
  intros [Hr Hd]. unfold destroySession.
  destruct (flowrSession h) as [r|] eqn:E; simpl.
  - split; [done|]. split; [apply length_alter|].
    intros i s. rewrite list_lookup_alter. case_decide as Hi.
    + intros [s0 [_ ->]]%fmap_Some. apply socket_destroy_destroyed.
    + intros Hs. apply (Hd i s Hs). congruence.
  - split; [done|]. split; [done|]. intros i s Hs. by apply (Hd i s Hs).
Qed.

Lemma exec_onlyCurrentOpen (h : Handle Session) (c : Command) :
  onlyCurrentOpen h -> onlyCurrentOpen (exec h c).
Proof.
  intros Hinv. pose proof (destroySession_all_destroyed h Hinv) as (Hf & Hlen & Hall).
  destruct c as [| | |r e]; simpl.
  - unfold establishServerSession. split; simpl.
    + intros r [= <-]. rewrite length_app. simpl. lia.
    + intros i s Hs Hne. apply lookup_app_Some in Hs as [Hs|[Hge Hs]].
      * by eapply Hall.
      * destruct (i - length (sessions (destroySession h))) as [|k] eqn:Hk;
          [|by destruct k].
        destruct Hne. f_equal. lia.
  - destruct (flowrSession h) eqn:E; [|done].
    split; [by rewrite Hf|]. intros i s Hs _. by eapply Hall.
  - split; [by rewrite Hf|]. intros i s Hs _. by eapply Hall.
  - destruct Hinv as [Hr Hd]. split; simpl.
    + intros r' Hr'. rewrite length_alter. by apply Hr.
    + intros i s. rewrite list_lookup_alter. case_decide as Hi.
      * intros [s0 [Hs0 ->]]%fmap_Some Hne. subst i.
        apply step_stays_destroyed. by eapply Hd.
      * intros Hs Hne. by eapply Hd.
Qed.

Lemma execAll_onlyCurrentOpen (cs : list Command) (h : Handle Session) :
  onlyCurrentOpen h -> onlyCurrentOpen (execAll h cs).
Proof.
  revert h. induction cs as [|c cs IH]; intros h Hh; [done|].
  simpl. by apply IH, exec_onlyCurrentOpen.
Qed.

Lemma noSession_onlyCurrentOpen : onlyCurrentOpen noSession.
Proof. split; [done|]. intros i s Hs. discriminate Hs. Qed.

(** However the extension is used, no connection is left behind: at any
    time at most one session has an open socket, the one [flowrSession]
    refers to, and after a disconnect or the disposal of the extension
    none has. *)
Theorem no_session_left_open (cs : list Command) :
  let h := execAll noSession cs in
  onlyCurrentOpen h
  /\ (forall i j si sj,
        sessions h !! i = Some si -> sessions h !! j = Some sj ->
        destroyed (socket si) = false -> destroyed (socket sj) = false -> i = j)
  /\ (forall c, c = Disconnect \/ c = Deactivate ->
        flowrSession (exec h c) = None
        /\ forall i s, sessions (exec h c) !! i = Some s ->
                       destroyed (socket s) = true).
Proof.
  intros h.
  assert (onlyCurrentOpen h) as Hinv.
  { apply execAll_onlyCurrentOpen, noSession_onlyCurrentOpen. }
  split; [exact Hinv|]. split.
  - destruct Hinv as [_ Hd]. intros i j si sj Hi Hj Hoi Hoj.
    destruct (decide (flowrSession h = Some i)) as [Ei|Ni];
      [|by rewrite (Hd i si Hi Ni) in Hoi].
    destruct (decide (flowrSession h = Some j)) as [Ej|Nj];
      [|by rewrite (Hd j sj Hj Nj) in Hoj].
    congruence.
  - pose proof (destroySession_all_destroyed h Hinv) as (Hf & _ & Hall).
    intros c [-> | ->]; simpl; [|done].
    destruct (flowrSession h) eqn:E; [done|]. split; [done|].
    destruct Hinv as [_ Hd]. intros i s Hs. apply (Hd i s Hs). congruence.
Qed.

End LifecycleFacts.

(** Two connects in a row, some traffic, a disconnect. *)
Lemma no_session_left_open_witness :
  let h := Lifecycle.execAll Lifecycle.noSession
             [Lifecycle.Connect; Lifecycle.Connect;
              Lifecycle.OnSession 1 (ServerSession.CallSendCommand (js "{}"))] in
  Extension.flowrSession h = Some 1
  /\ Extension.released h 0
  /\ Extension.flowrSession (Lifecycle.exec h Lifecycle.Disconnect) = None.
Proof.
  intros h.
  destruct (no_session_left_open
              [Lifecycle.Connect; Lifecycle.Connect;
               Lifecycle.OnSession 1 (ServerSession.CallSendCommand (js "{}"))])
    as ([_ H1] & _ & H3).
  split; [reflexivity|]. split.
  - eexists. split; [reflexivity|]. eapply (H1 0); [reflexivity|discriminate].
  - apply (H3 Lifecycle.Disconnect). by left.
Defined.

(* ===================================================================== *)
(** * More on [refresh]                                                   *)
(* ===================================================================== *)

Section RefreshMore.

Import Rotary DependencyView.

(** A call of [refresh] changes the view only when no call is in flight,
    an R document is active and its fingerprint differs from [lastText];
    in every other case the view stays exactly as it is. *)
Theorem refresh_changes_only_when_due
    (ed : option Editor) (keep : bool) (outcome : QueryOutcome) (v : View) :
  refresh ed keep outcome v <> v ->
  working v = false
  /\ exists e, ed = Some e
               /\ languageId e = js "r"
               /\ Fingerprint.textFingerprint (getText e) <> lastText v.
Proof.
  unfold refresh, refreshEnter. intros Hne.
  destruct (refreshGuards ed v) as [v1 [x|text]] eqn:Hg.
  - by rewrite (refreshGuards_returned _ _ _ _ Hg) in Hne.
  - apply refreshGuards_passed in Hg as (_ & Hw & _ & _ & _ & _ & e & -> & Hl & -> & Ht).
    split; [done|]. by exists e.
Qed.

Lemma refresh_changes_only_when_due_witness :
  let ed := mkEditor (js "r") (js "x <- 1") in
  working newView = false
  /\ exists e, Some ed = Some e
               /\ languageId e = js "r"
               /\ Fingerprint.textFingerprint (getText e) <> lastText newView.
Proof.
  apply (refresh_changes_only_when_due
           (Some (mkEditor (js "r") (js "x <- 1"))) true QueryFailed newView).
  discriminate.
Defined.

(** What a first look at a new fingerprint does, step by step. *)
Lemma refresh_miss (ed : Editor) (keep : bool) (outcome : QueryOutcome) (v : View) :
  working v = false ->
  languageId ed = js "r" ->
  Fingerprint.textFingerprint (getText ed) <> lastText v ->
  get (textBuffer v) (fun e => bool_decide (e.1 = Fingerprint.textFingerprint (getText ed)))
  = None ->
  let text := Fingerprint.textFingerprint (getText ed) in
  refresh (Some ed) keep outcome v
  = refreshResume keep (mkSuspended text true) outcome
      (mkView true text (textBuffer v) (activeDependencies v) (locationMap v)
              (output v ++ [LogRefreshing]) (fired v) (revealsScheduled v)
              (S (cacheLookups v)) (S (roundTrips v))).
Proof.
  intros Hw Hl Ht Hmiss text. unfold refresh, refreshEnter.
  rewrite refreshGuards_new_text by done. fold text.
  unfold refreshBody. simpl. fold text in Hmiss. by rewrite Hmiss.
Qed.

(** When the query of a refresh fails, the setting [keepOnError] decides:
    with it, the dependencies and the location map shown stay and no
    change of the tree is announced; without it, both are emptied and one
    change is announced.  When the query rejects, they stay whatever the
    setting is.  In each case the failure is logged, nothing is cached and
    [working] is cleared. *)
Theorem refresh_failure_policy
    (ed : Editor) (keep : bool) (v : View) :
  working v = false ->
  languageId ed = js "r" ->
  Fingerprint.textFingerprint (getText ed) <> lastText v ->
  get (textBuffer v) (fun e => bool_decide (e.1 = Fingerprint.textFingerprint (getText ed)))
  = None ->
  let failed := refresh (Some ed) keep QueryFailed v in
  (if keep
   then activeDependencies failed = activeDependencies v
        /\ locationMap failed = locationMap v
        /\ fired failed = fired v
   else activeDependencies failed = emptyDependencies
        /\ locationMap failed = emptyLocationMap
        /\ fired failed = S (fired v))
  /\ output failed = output v ++ [LogRefreshing; LogCouldNotRetrieve]
  /\ textBuffer failed = textBuffer v
  /\ working failed = false
  /\ forall e,
       let rejected := refresh (Some ed) keep (QueryRejected e) v in
       activeDependencies rejected = activeDependencies v
       /\ locationMap rejected = locationMap v
       /\ fired rejected = fired v
       /\ output rejected = output v ++ [LogRefreshing; LogError e]
       /\ textBuffer rejected = textBuffer v
       /\ working rejected = false.
Proof.
  intros Hw Hl Ht Hmiss failed. subst failed.
  split; [|split; [|split; [|split]]].
  - rewrite refresh_miss by done. by destruct keep.
  - rewrite refresh_miss by done. destruct keep; simpl; by rewrite <- app_assoc.
  - rewrite refresh_miss by done. by destruct keep.
  - rewrite refresh_miss by done. by destruct keep.
  - intros e rejected. subst rejected. rewrite refresh_miss by done.
    simpl. by rewrite <- app_assoc.
Qed.

Lemma refresh_failure_policy_witness :
  let ed := mkEditor (js "r") (js "x <- 1") in
  let failed := refresh (Some ed) false QueryFailed newView in
  activeDependencies failed = emptyDependencies /\ fired failed = 1.
Proof.
  destruct (refresh_failure_policy (mkEditor (js "r") (js "x <- 1")) false newView)
    as ((H1 & _ & H2) & _); try done.
Defined.

(** While the query of a refresh has not settled, every further call of
    [refresh] is dropped, however many there are and whatever the editor
    shows: nothing is queued and nothing times out. *)
Theorem triggers_dropped_while_in_flight
    (trace : list ViewEvent) (eds : list (option Editor)) :
  inFlight (loopRun newLoop trace) <> [] ->
  loopRun (loopRun newLoop trace) (List.map Trigger eds) = loopRun newLoop trace.
Proof.
  intros Hne. pose proof (loopRun_guarded trace) as Hg.
  set (l := loopRun newLoop trace) in *. unfold guarded in Hg.
  assert (working (view l) = true) as Hw.
  { destruct (working (view l)); [done|]. by destruct (inFlight l). }
  clear Hg Hne. induction eds as [|ed eds IH]; [done|].
  simpl. unfold refreshEnter. rewrite refreshGuards_working by done.
  destruct l. exact IH.
Qed.

Lemma triggers_dropped_while_in_flight_witness :
  let a := mkEditor (js "r") (js "x <- 1") in
  let b := mkEditor (js "r") (js "y <- 2") in
  loopRun (loopRun newLoop [Trigger (Some a)]) (List.map Trigger [Some b; None; Some a])
  = loopRun newLoop [Trigger (Some a)].
Proof.
  apply (triggers_dropped_while_in_flight
           [Trigger (Some (mkEditor (js "r") (js "x <- 1")))]).
  discriminate.
Defined.

End RefreshMore.

(* ===================================================================== *)
(** * The cache in use                                                    *)
(* ===================================================================== *)

Section CacheInUse.

Import Rotary DependencyView.

Lemma entries_push {A : Type} (b : RotaryBuffer A) (x : A) :
  index b < capacity b ->
  entries (push b x) = omap id (drop 1 (rotation b)) ++ [x].
Proof.
  intros Hi. unfold entries. rewrite rotation_push by done.
  by rewrite omap_app.
Qed.

Lemma find_none_sub {A : Type} (p : A -> bool) (l1 l2 : list A) :
  (forall x, x ∈ l1 -> x ∈ l2) -> List.find p l2 = None -> List.find p l1 = None.
Proof.
  intros Hsub Hnone.
  destruct (List.find p l1) as [x|] eqn:E; [|done].
  apply List.find_some in E as [Hin Hp].
  assert (In x l2) as Hin2 by (apply list_elem_of_In, Hsub, list_elem_of_In, Hin).
  pose proof (List.find_none _ _ Hnone x Hin2). congruence.
Qed.

Lemma omap_drop_sub {A : Type} (r : list (option A)) (x : A) :
  x ∈ omap id (drop 1 r) -> x ∈ omap id r.
Proof.
  destruct r as [|y r]; [done|]. simpl. rewrite drop_0.
  destruct y; simpl; [by apply list_elem_of_further|done].
Qed.

(** A miss stays a miss when an entry that does not match is pushed. *)
Lemma get_push_miss {A : Type} (b : RotaryBuffer A) (x : A) (p : A -> bool) :
  index b < capacity b ->
  get b p = None -> p x = false -> get (push b x) p = None.
Proof.
  intros Hi Hnone Hx. unfold get in *. rewrite entries_push by done.
  rewrite rev_app_distr. simpl. rewrite Hx.
  eapply find_none_sub; [|exact Hnone].
  intros y Hy. apply list_elem_of_In, in_rev, list_elem_of_In in Hy.
  apply list_elem_of_In. rewrite <- in_rev. apply list_elem_of_In.
  by apply omap_drop_sub.
Qed.

(** An entry is still found after one more push, when the buffer has room
    for two. *)
Lemma get_push_push {A : Type} (b : RotaryBuffer A) (x y : A) (p : A -> bool) :
  index b < capacity b -> 2 <= capacity b ->
  p x = true -> p y = false -> get (push (push b x) y) p = Some x.
Proof.
  intros Hi Hc Hx Hy. unfold get.
  rewrite entries_push by (apply push_index_lt; lia).
  rewrite rotation_push by done.
  pose proof (rotation_length b ltac:(lia)) as Hlen.
  destruct (rotation b) as [|z [|z' r]]; simpl in Hlen; try lia.
  simpl. rewrite !drop_0. rewrite omap_app. simpl.
  rewrite !rev_app_distr. simpl. by rewrite Hy, Hx.
Qed.

Lemma refresh_hit (ed : Editor) (keep : bool) (outcome : QueryOutcome) (v : View)
    (has : JSString * Bundle) :
  working v = false ->
  languageId ed = js "r" ->
  Fingerprint.textFingerprint (getText ed) <> lastText v ->
  get (textBuffer v) (fun e => bool_decide (e.1 = Fingerprint.textFingerprint (getText ed)))
  = Some has ->
  let v' := refresh (Some ed) keep outcome v in
  activeDependencies v' = dep has.2
  /\ locationMap v' = loc has.2
  /\ lastText v' = Fingerprint.textFingerprint (getText ed)
  /\ roundTrips v' = roundTrips v
  /\ fired v' = S (fired v)
  /\ textBuffer v' = textBuffer v
  /\ working v' = false.
Proof.
  intros Hw Hl Ht Hhit. unfold refresh, refreshEnter.
  rewrite refreshGuards_new_text by done.
  unfold refreshBody. simpl. by rewrite Hhit.
Qed.

(** A document goes from one text to another and back, each refresh
    running to its end: the third refresh finds the result of the first in
    the cache, shows it, and asks the session nothing. *)
Theorem refresh_back_to_cached_text
    (a b : Editor) (keep : bool) (ra rb : Bundle) (v : View)
    (keep' : bool) (outcome : QueryOutcome) :
  working v = false ->
  languageId a = js "r" ->
  languageId b = js "r" ->
  Fingerprint.textFingerprint (getText a) <> Fingerprint.textFingerprint (getText b) ->
  Fingerprint.textFingerprint (getText a) <> lastText v ->
  get (textBuffer v) (fun e => bool_decide (e.1 = Fingerprint.textFingerprint (getText a)))
  = None ->
  get (textBuffer v) (fun e => bool_decide (e.1 = Fingerprint.textFingerprint (getText b)))
  = None ->
  index (textBuffer v) < capacity (textBuffer v) ->
  2 <= capacity (textBuffer v) ->
  let v2 := refresh (Some b) keep (QueryOk rb) (refresh (Some a) keep (QueryOk ra) v) in
  let v3 := refresh (Some a) keep' outcome v2 in
  roundTrips v2 = roundTrips v + 2
  /\ roundTrips v3 = roundTrips v2
  /\ activeDependencies v2 = dep rb
  /\ activeDependencies v3 = dep ra
  /\ locationMap v3 = loc ra
  /\ lastText v3 = Fingerprint.textFingerprint (getText a)
  /\ working v3 = false.
Proof.
  intros Hw Hla Hlb Hab Ha Hma Hmb Hi Hc v2 v3.
  set (fa := Fingerprint.textFingerprint (getText a)) in *.
  set (fb := Fingerprint.textFingerprint (getText b)) in *.
  pose proof (refresh_miss a keep (QueryOk ra) v Hw Hla Ha Hma) as E1.
  fold fa in E1. unfold refreshResume, refreshSettle in E1. simpl in E1.
  set (v1 := refresh (Some a) keep (QueryOk ra) v) in *.
  assert (working v1 = false /\ lastText v1 = fa
          /\ textBuffer v1 = push (textBuffer v) (fa, ra)
          /\ roundTrips v1 = S (roundTrips v)) as (Hw1 & Hl1 & Hb1 & Hr1).
  { by rewrite E1. }
  assert (get (textBuffer v1) (fun e => bool_decide (e.1 = fb)) = None) as Hmb1.
  { rewrite Hb1. apply get_push_miss; [done|done|].
    simpl. by apply bool_decide_eq_false. }
  assert (fb <> lastText v1) as Hb by (rewrite Hl1; congruence).
  pose proof (refresh_miss b keep (QueryOk rb) v1 Hw1 Hlb Hb Hmb1) as E2.
  fold fb in E2. unfold refreshResume, refreshSettle in E2. simpl in E2.
  fold v2 in E2.
  assert (working v2 = false /\ lastText v2 = fb
          /\ textBuffer v2 = push (push (textBuffer v) (fa, ra)) (fb, rb)
          /\ roundTrips v2 = S (S (roundTrips v))
          /\ activeDependencies v2 = dep rb) as (Hw2 & Hl2 & Hb2 & Hr2 & Hd2).
  { rewrite E2. simpl. by rewrite Hb1, Hr1. }
  assert (get (textBuffer v2) (fun e => bool_decide (e.1 = fa)) = Some (fa, ra)) as Hhit.
  { rewrite Hb2. apply get_push_push; try done.
    - simpl. by apply bool_decide_eq_true.
    - simpl. apply bool_decide_eq_false. congruence. }
  assert (fa <> lastText v2) as Ha2 by (rewrite Hl2; congruence).
  destruct (refresh_hit a keep' outcome v2 (fa, ra) Hw2 Hla Ha2 Hhit)
    as (H1 & H2 & H3 & H4 & _ & _ & H7).
  fold v3 in H1, H2, H3, H4, H7.
  repeat split; try done; lia.
Qed.

Lemma refresh_back_to_cached_text_witness :
  let a := mkEditor (js "r") (js "x <- 1") in
  let b := mkEditor (js "r") (js "y <- 2") in
  let ra := mkBundle (mkDependencies [] [] [] [] 7) emptyLocationMap in
  let rb := mkBundle emptyDependencies emptyLocationMap in
  let v2 := refresh (Some b) true (QueryOk rb) (refresh (Some a) true (QueryOk ra) newView) in
  roundTrips (refresh (Some a) true QueryFailed v2) = 2
  /\ activeDependencies (refresh (Some a) true QueryFailed v2) = dep ra.
Proof.
  intros a b ra rb v2.
  destruct (refresh_back_to_cached_text a b true ra rb newView true QueryFailed)
    as (H1 & H2 & _ & H4 & _).
  1-9: try done; unfold capacity; simpl; lia.
  split; [|exact H4]. fold v2 in H1, H2. rewrite H2, H1. reflexivity.
Defined.

End CacheInUse.

(* ===================================================================== *)
(** * The tree of dependencies                                            *)
(* ===================================================================== *)

Section TreeFacts.

Import Tree.

Context {E : Type}.
Variable getName : E -> JSString.
Variable functionName : E -> JSString.
Variable lexemeOfArgument : E -> option JSString.
Variable nodeId : E -> JSString.

Local Abbreviation key := (groupKey E getName functionName).
Local Abbreviation groups := (grouped E getName functionName).
Local Abbreviation keys := (firstKeys E getName functionName).
Local Abbreviation having := (withKey E getName functionName).
Local Abbreviation nodeOf M :=
  (fun e => leaf E nodeId M (unknownGuardedName E getName lexemeOfArgument e) e).

Lemma withKey_snoc (k : JSString) (els : list E) (e : E) :
  having k (els ++ [e])
  = having k els ++ (if bool_decide (key e = k) then [e] else []).
Proof. unfold withKey. rewrite List.filter_app. simpl. by case_bool_decide. Qed.

Lemma keys_snoc (els : list E) (e : E) :
  keys (els ++ [e])
  = if bool_decide (key e ∈ keys els) then keys els else keys els ++ [key e].
Proof. unfold firstKeys. by rewrite fold_left_app. Qed.

Lemma keys_spec (els : list E) :
  NoDup (keys els)
  /\ forall k, k ∈ keys els <-> exists e, e ∈ els /\ key e = k.
Proof.
  induction els as [|e els [IH1 IH2]] using rev_ind.
  { split; [constructor|]. intros k. split; [by intros ?%elem_of_nil|].
    by intros (e & ?%elem_of_nil & _). }
  rewrite keys_snoc. case_bool_decide as Hk.
  - split; [done|]. intros k. rewrite IH2. split.
    + intros (e' & Hin & <-). exists e'. split; [|done]. apply elem_of_app. by left.
    + intros (e' & [Hin|Hin%list_elem_of_singleton]%elem_of_app & <-).
      * by exists e'.
      * subst e'. by apply IH2.
  - split.
    + apply NoDup_app. split; [done|]. split; [|apply NoDup_singleton].
      intros k Hin ->%list_elem_of_singleton. done.
    + intros k. rewrite elem_of_app, IH2, list_elem_of_singleton. split.
      * intros [(e' & Hin & <-)| ->].
        -- exists e'. split; [|done]. apply elem_of_app. by left.
        -- exists e. split; [|done]. apply elem_of_app. right. by left.
      * intros (e' & [Hin|Hin%list_elem_of_singleton]%elem_of_app & <-).
        -- left. by exists e'.
        -- subst e'. by right.
Qed.

Lemma withKey_absent (k : JSString) (els : list E) :
  k ∉ keys els -> having k els = [].
Proof.
  intros Hk. unfold withKey.
  destruct (List.filter _ els) as [|e r] eqn:Hf; [done|].
  assert (In e (List.filter (fun e => bool_decide (key e = k)) els)) as Hin.
  { rewrite Hf. by left. }
  apply filter_In in Hin as [Hin He]. apply bool_decide_eq_true in He.
  destruct Hk. apply keys_spec. exists e. split; [|done]. by apply list_elem_of_In.
Qed.

Lemma groupPush_known (els : list E) (e : E) (ks : list JSString) :
  NoDup ks -> key e ∈ ks ->
  groupPush (key e) e (List.map (fun k => (k, having k els)) ks)
  = List.map (fun k => (k, having k (els ++ [e]))) ks.
Proof.
  induction ks as [|k ks IH]; intros Hnd Hin; [by apply elem_of_nil in Hin|].
  apply NoDup_cons in Hnd as [Hk Hnd]. simpl. rewrite withKey_snoc.
  case_bool_decide as Hke.
  - rewrite bool_decide_eq_true_2 by done. f_equal.
    apply List.map_ext_in. intros k' Hk'%list_elem_of_In.
    rewrite withKey_snoc, bool_decide_eq_false_2, app_nil_r; [done|].
    intros Heq. apply Hk. by rewrite Hke, Heq.
  - rewrite bool_decide_eq_false_2 by congruence. rewrite app_nil_r. f_equal.
    apply IH; [done|]. apply elem_of_cons in Hin as [?|?]; [|done]. congruence.
Qed.

Lemma groupPush_new (els : list E) (e : E) (ks : list JSString) :
  key e ∉ ks -> having (key e) els = [] ->
  groupPush (key e) e (List.map (fun k => (k, having k els)) ks)
  = List.map (fun k => (k, having k (els ++ [e]))) (ks ++ [key e]).
Proof.
  intros Hnot Hnone. induction ks as [|k ks IH].
  { simpl. rewrite withKey_snoc, Hnone. by rewrite bool_decide_eq_true_2. }
  simpl. rewrite bool_decide_eq_false_2.
  2:{ intros ->. apply Hnot. left. }
  rewrite withKey_snoc, bool_decide_eq_false_2, app_nil_r.
  2:{ intros Heq. apply Hnot. rewrite Heq. left. }
  f_equal. apply IH. intros ?. apply Hnot. by right.
Qed.

Lemma grouped_spec (els : list E) :
  groups els = List.map (fun k => (k, having k els)) (keys els).
Proof.
  induction els as [|e els IH] using rev_ind; [done|].
  unfold grouped. rewrite fold_left_app. simpl. fold (groups els).
  rewrite IH, keys_snoc. destruct (keys_spec els) as [Hnd _].
  case_bool_decide as Hk.
  - by apply groupPush_known.
  - apply groupPush_new; [done|]. by apply withKey_absent.
Qed.

Lemma withKey_present (k : JSString) (els : list E) :
  k ∈ keys els -> having k els <> [].
Proof.
  intros (e & Hin & <-)%keys_spec Hnil.
  assert (In e (having (key e) els)) as H.
  { apply filter_In. split; [by apply list_elem_of_In|by apply bool_decide_eq_true]. }
  by rewrite Hnil in H.
Qed.

(** The grouping loop of [makeChildren]: there is one group for each key
    [name (function)] that occurs, in the order in which the keys first
    occur, and the group of a key holds the elements with that key, all of
    them, in their order. *)
Theorem grouped_by_key (els : list E) :
  grouped E getName functionName els
  = List.map (fun k => (k, withKey E getName functionName k els))
             (firstKeys E getName functionName els)
  /\ NoDup (firstKeys E getName functionName els)
  /\ (forall k, k ∈ firstKeys E getName functionName els
                <-> exists e, e ∈ els /\ groupKey E getName functionName e = k)
  /\ Forall (fun entry => entry.2 <> []) (grouped E getName functionName els).
Proof.
  destruct (keys_spec els) as [Hnd Hin].
  split; [apply grouped_spec|]. split; [done|]. split; [done|].
  rewrite grouped_spec. apply Forall_forall.
  intros [k es] [k' [[= -> ->] Hk]]%list_elem_of_fmap. simpl.
  by apply withKey_present.
Qed.

(** ** The nodes *)

Lemma shown_leaf (M : gmap JSString Range) (es : list E) :
  flat_map shown (List.map (nodeOf M) es) = es.
Proof. induction es as [|e es IH]; [done|]. simpl. by rewrite IH. Qed.

Lemma shown_entry (M : gmap JSString Range) (k : JSString) (es : list E) :
  shown match es with
        | [] => mkDependency k false true None None (List.map (nodeOf M) [])
        | [e] => nodeOf M e
        | e :: e0 :: l0 =>
            mkDependency k false true None None (List.map (nodeOf M) (e :: e0 :: l0))
        end = es.
Proof.
  destruct es as [|e [|e' es]]; try done.
  change (flat_map shown (List.map (nodeOf M) (e :: e' :: es)) = e :: e' :: es).
  apply shown_leaf.
Qed.

Lemma concat_withKey (ks : list JSString) (els : list E) :
  NoDup ks -> (forall e, e ∈ els -> key e ∈ ks) ->
  concat (List.map (fun k => having k els) ks) ≡ₚ els.
Proof.
  intros Hnd Hall. induction els as [|e els IH] using rev_ind.
  { assert (forall ks' : list JSString,
               concat (List.map (fun k => having k (@nil E)) ks') = []) as H.
    { induction ks' as [|? ? IH']; [done|]. simpl. exact IH'. }
    by rewrite H. }
  assert (key e ∈ ks) as Hk.
  { apply Hall, elem_of_app. right. by left. }
  transitivity (concat (List.map (fun k => having k els) ks) ++ [e]).
  2:{ apply Permutation_app_tail, IH. intros e' He'. apply Hall, elem_of_app. by left. }
  clear IH Hall. induction ks as [|k ks IHk]; [by apply elem_of_nil in Hk|].
  apply NoDup_cons in Hnd as [Hnk Hnd]. simpl. rewrite withKey_snoc.
  case_bool_decide as Hke.
  - assert (List.map (fun k => having k (els ++ [e])) ks
            = List.map (fun k => having k els) ks) as ->.
    { apply List.map_ext_in. intros k' Hk'%list_elem_of_In.
      rewrite withKey_snoc, bool_decide_eq_false_2, app_nil_r; [done|].
      intros Heq. apply Hnk. by rewrite <- Hke, Heq. }
    rewrite <- !app_assoc. apply Permutation_app_head, Permutation_app_comm.
  - rewrite app_nil_r, <- app_assoc. apply Permutation_app_head, IHk; [done|].
    apply elem_of_cons in Hk as [?|?]; [|done]. by subst k.
Qed.

(** The nodes [makeChildren] builds: each dependency is shown exactly
    once.  A key that one element has gives that element's node; a key
    that several elements have gives a folder labelled with the key, whose
    children are the nodes of those elements in their order.  Folders are
    collapsed, the nodes of elements are not; the nodes of elements, and
    only they, carry the context value. *)
Theorem makeChildren_nodes (M : gmap JSString Range) (els : list E) :
  let nodes := makeChildren E getName functionName lexemeOfArgument nodeId M els in
  flat_map shown nodes ≡ₚ els
  /\ length nodes = length (keys els)
  /\ Forall (fun d =>
               (exists e, d = nodeOf M e /\ e ∈ els /\ having (key e) els = [e]
                          /\ collapsed d = false /\ isContextDependency d = true)
               \/ (info d = None
                   /\ children d = List.map (nodeOf M) (having (label d) els)
                   /\ 2 <= length (children d)
                   /\ collapsed d = true /\ isContextDependency d = false))
            nodes.
Proof.
  intros nodes. subst nodes. unfold makeChildren. rewrite grouped_spec.
  destruct (keys_spec els) as [Hnd Hin].
  rewrite List.map_map. split; [|split].
  - rewrite flat_map_concat_map, List.map_map.
    erewrite List.map_ext; [|intros k; cbn [fst snd]; apply shown_entry].
    apply concat_withKey; [done|]. intros e He. apply Hin. by exists e.
  - by rewrite length_map.
  - apply Forall_forall. intros d [k [-> Hk]]%list_elem_of_fmap. cbn [fst snd].
    pose proof (withKey_present k els Hk) as Hne.
    destruct (having k els) as [|e [|e' es]] eqn:Hes; [done| |].
    + left. exists e.
      assert (In e (having k els)) as He by (rewrite Hes; by left).
      apply filter_In in He as [He Hke]. apply bool_decide_eq_true in Hke.
      subst k. repeat split; try done. by apply list_elem_of_In.
    + right. simpl. rewrite Hes. repeat split; try done. simpl. lia.
Qed.

End TreeFacts.

(** Three libraries, two of them loaded by the same function under the
    same name. *)
Lemma grouped_by_key_witness :
  let name := fun e : nat => if (e =? 2)%nat then js "b" else js "a" in
  Tree.grouped nat name (fun _ => js "library") [1; 2; 3]
  = [(js "a (library)", [1; 3]); (js "b (library)", [2])].
Proof.
  intros name.
  destruct (grouped_by_key name (fun _ => js "library") [1; 2; 3]) as (-> & _).
  reflexivity.
Defined.

Lemma makeChildren_nodes_witness :
  let name := fun e : nat => if (e =? 2)%nat then js "b" else js "a" in
  length (Tree.makeChildren nat name (fun _ => js "library") (fun _ => None)
            (fun _ => js "n") ∅ [1; 2; 3]) = 2.
Proof.
  intros name.
  destruct (makeChildren_nodes name (fun _ => js "library") (fun _ => None)
              (fun _ => js "n") ∅ [1; 2; 3]) as (_ & -> & _).
  reflexivity.
Defined.

(* ===================================================================== *)
(** * Timers and listeners of the view                                    *)
(* ===================================================================== *)

Section TriggerFacts.

Import Triggers.

Lemma union_singleton_difference (X : gset nat) (d : nat) :
  d ∉ X -> (X ∪ {[d]}) ∖ {[d]} = X.
Proof.
  intros Hd. apply set_eq. intros x.
  rewrite elem_of_difference, elem_of_union, elem_of_singleton. split.
  - intros [[?| ->] ?]; done.
  - intros Hx. split; [by left|]. by intros ->.
Qed.

Lemma releaseActive_spec (st : State) :
  consistent st ->
  liveIntervals (releaseActive st) = ∅
  /\ liveListeners (releaseActive st) = list_to_set (disposables st)
  /\ activeInterval (releaseActive st) = None
  /\ activeDisposable (releaseActive st) = None
  /\ disposables (releaseActive st) = disposables st
  /\ nextHandle (releaseActive st) = nextHandle st
  /\ invalidTypes (releaseActive st) = invalidTypes st.
Proof.
  intros (Hi & Hl & Hd & Ha & Hone). unfold releaseActive.
  destruct (activeInterval st) as [ti|] eqn:Hti.
  - destruct Hone as [?|Hnone]; [done|]. simpl. rewrite Hnone. simpl.
    rewrite Hi, Hl, Hnone. simpl. repeat split; try done.
    + apply difference_diag_L.
    + apply right_id_L. apply _.
  - destruct (activeDisposable st) as [d|] eqn:Hdi; simpl.
    + rewrite Hi, Hl. simpl. repeat split; try done.
      apply union_singleton_difference.
      rewrite elem_of_list_to_set. by apply Ha.
    + rewrite Hi, Hl. simpl. repeat split; try done.
      apply right_id_L. apply _.
Qed.

Lemma updateConfig_consistent (t : JSString) (st : State) :
  consistent st ->
  consistent (updateConfig t st)
  /\ disposables (updateConfig t st) = disposables st
  /\ (is_Some (activeInterval (updateConfig t st)) <-> kindOf t = Interval)
  /\ (is_Some (activeDisposable (updateConfig t st))
      <-> kindOf t = OnSave \/ kindOf t = OnChange)
  /\ invalidTypes (updateConfig t st)
     = invalidTypes st ++ (if kindOf t is Invalid then [t] else []).
Proof.
  intros Hc. pose proof Hc as (_ & _ & Hd & _).
  destruct (releaseActive_spec st Hc) as (E1 & E2 & E3 & E4 & E5 & E6 & E7).
  unfold updateConfig, consistent.
  destruct (kindOf t) eqn:Hk; simpl; rewrite ?E1, ?E2, ?E3, ?E4, ?E5, ?E6, ?E7; simpl;
    split_and!; try done.
  all: try (by rewrite app_nil_r).
  all: try (by left).
  all: try (by right).
  all: try (symmetry; apply right_id_L; apply _).
  all: try (symmetry; apply left_id_L; apply _).
  all: try (apply left_id_L; apply _).
  all: try (intros h Hh; apply Hd in Hh; lia).
  all: try (intros h' [= <-]; split; [lia|]; intros Hin; apply Hd in Hin; lia).
  all: try (split; [by intros [? [=]]|done]).
  all: try (split; [by intros [? [=]]|by intros [?|?]]).
  all: try (split; [done|by eexists]).
  all: try (split; [by left|by eexists]).
  all: try (split; [by right|by eexists]).
Qed.

Lemma subscribe_consistent (st : State) :
  consistent st ->
  consistent (subscribe st)
  /\ activeInterval (subscribe st) = activeInterval st
  /\ activeDisposable (subscribe st) = activeDisposable st
  /\ length (disposables (subscribe st)) = S (length (disposables st)).
Proof.
  intros (Hi & Hl & Hd & Ha & Hone). unfold subscribe, consistent. simpl.
  split_and!; try done.
  - rewrite Hl. apply set_eq. intros x.
    rewrite !elem_of_union, !elem_of_list_to_set, elem_of_app, elem_of_singleton,
      list_elem_of_singleton.
    tauto.
  - intros h [Hh| ->%list_elem_of_singleton]%elem_of_app; [apply Hd in Hh|]; lia.
  - intros h Hh. destruct (Ha h Hh) as [Hlt Hnot]. split; [lia|].
    intros [?| ->%list_elem_of_singleton]%elem_of_app; [done|lia].
  - rewrite length_app. simpl. lia.
Qed.

Lemma construct_consistent (t : JSString) :
  consistent (construct t)
  /\ length (disposables (construct t)) = 2
  /\ (is_Some (activeInterval (construct t)) <-> kindOf t = Interval)
  /\ (is_Some (activeDisposable (construct t))
      <-> kindOf t = OnSave \/ kindOf t = OnChange).
Proof.
  assert (consistent (mkState None None [] ∅ ∅ 0 [])) as H0.
  { unfold consistent. simpl. split_and!; try done.
    all: try (by left).
    all: try (by intros h ?%elem_of_nil).
    all: try (symmetry; apply left_id_L; apply _). }
  destruct (updateConfig_consistent t _ H0) as (H1 & Hd & Hai & Had & _).
  destruct (subscribe_consistent _ H1) as (H2 & Ei & Ed & Hlen).
  destruct (subscribe_consistent _ H2) as (H3 & Ei' & Ed' & Hlen').
  unfold construct. rewrite Ei', Ei, Ed', Ed, Hlen', Hlen, Hd. done.
Qed.

Lemma configured_snoc (initial t : JSString) (changes : list JSString) :
  configured initial (changes ++ [t]) = updateConfig t (configured initial changes).
Proof. unfold configured. by rewrite fold_left_app. Qed.

Lemma configured_consistent (initial : JSString) (changes : list JSString) :
  let st := configured initial changes in
  let setting := List.last changes initial in
  consistent st
  /\ length (disposables st) = 2
  /\ (is_Some (activeInterval st) <-> kindOf setting = Interval)
  /\ (is_Some (activeDisposable st)
      <-> kindOf setting = OnSave \/ kindOf setting = OnChange).
Proof.
  induction changes as [|t changes IH] using rev_ind.
  { apply construct_consistent. }
  simpl in *. rewrite configured_snoc, List.last_last.
  destruct IH as (Hc & Hlen & _).
  destruct (updateConfig_consistent t _ Hc) as (H1 & -> & Hai & Had & _).
  done.
Qed.

(** After the construction of the view and any series of configuration
    changes, the timers and listeners that are live are exactly the two
    listeners of the constructor and what the setting in force asks for:
    one interval timer for [interval], one listener for [on save] and
    [on change], nothing otherwise.  What earlier settings had armed is
    released. *)
Theorem only_last_setting_armed (initial : JSString) (changes : list JSString) :
  let st := configured initial changes in
  let setting := List.last changes initial in
  liveIntervals st = ofOption (activeInterval st)
  /\ liveListeners st = list_to_set (disposables st) ∪ ofOption (activeDisposable st)
  /\ length (disposables st) = 2
  /\ (activeInterval st = None \/ activeDisposable st = None)
  /\ (is_Some (activeInterval st) <-> kindOf setting = Interval)
  /\ (is_Some (activeDisposable st)
      <-> kindOf setting = OnSave \/ kindOf setting = OnChange).
Proof.
  destruct (configured_consistent initial changes)
    as ((Hi & Hl & _ & _ & Hone) & Hlen & Hai & Had).
  done.
Qed.

Lemma only_last_setting_armed_witness :
  let st := configured (js "interval") [js "on save"; js "sometimes"; js "interval"] in
  is_Some (activeInterval st) /\ activeDisposable st = None.
Proof.
  destruct (only_last_setting_armed (js "interval")
              [js "on save"; js "sometimes"; js "interval"])
    as (_ & _ & _ & Hone & Hai & _).
  assert (is_Some (activeInterval
                     (configured (js "interval")
                        [js "on save"; js "sometimes"; js "interval"]))) as H.
  { apply Hai. reflexivity. }
  split; [exact H|]. destruct Hone as [Hn|Hn]; [|exact Hn].
  rewrite Hn in H. by destruct H.
Defined.

Lemma dispose_twice (st : State) : dispose (dispose st) = dispose st.
Proof.
  unfold dispose. simpl. f_equal.
  - destruct (activeInterval st); [|done]. apply set_eq. intros x.
    rewrite !elem_of_difference. tauto.
  - destruct (activeDisposable st); apply set_eq; intros x;
      rewrite !elem_of_difference; tauto.
Qed.

(** [dispose] after the construction and any series of configuration
    changes leaves no timer and no listener live, and a second [dispose]
    changes nothing. *)
Theorem dispose_releases_everything (initial : JSString) (changes : list JSString) :
  let st := dispose (configured initial changes) in
  liveIntervals st = ∅
  /\ liveListeners st = ∅
  /\ dispose st = st.
Proof.
  destruct (configured_consistent initial changes)
    as ((Hi & Hl & _ & _ & _) & _).
  simpl. split; [|split; [|apply dispose_twice]].
  - unfold dispose. simpl. rewrite Hi.
    destruct (activeInterval (configured initial changes)); simpl; [|done].
    apply difference_diag_L.
  - unfold dispose. simpl. rewrite Hl.
    destruct (activeDisposable (configured initial changes)); simpl;
      apply set_eq; intros x;
      rewrite ?elem_of_difference, !elem_of_union, ?elem_of_singleton,
        elem_of_empty; tauto.
Qed.

Lemma dispose_releases_everything_witness :
  liveListeners (dispose (configured (js "on change") [js "interval"; js "on save"])) = ∅
  /\ liveIntervals (dispose (configured (js "on change") [js "interval"; js "on save"])) = ∅.
Proof.
  destruct (dispose_releases_everything (js "on change") [js "interval"; js "on save"])
    as (H1 & H2 & _).
  split; [exact H2|exact H1].
Defined.

End TriggerFacts.

(* ===================================================================== *)
(** * More on the fingerprint                                             *)
(* ===================================================================== *)

Section FingerprintMore.

Import Fingerprint.

Lemma trim_infix (t : JSString) :
  exists front back,
    t = front ++ trim t ++ back
    /\ Forall (fun u => isSpace u = true) front
    /\ Forall (fun u => isSpace u = true) back.
Proof.
  destruct (dropWhile_split isSpace t) as [E1 H1].
  destruct (dropWhile_split isSpace (rev (dropWhile isSpace t))) as [E2 H2].
  exists (takeWhile isSpace t), (rev (takeWhile isSpace (rev (dropWhile isSpace t)))).
  split; [|split; [done|by apply Forall_rev]].
  unfold trim. rewrite <- rev_app_distr, <- E2, rev_involutive. exact E1.
Qed.

Lemma replaceGo_sublist (rest : JSString) (before : option N) (skip : nat) :
  replaceGo before skip rest `sublist_of` rest.
Proof.
  revert before skip. induction rest as [|c tl IH]; intros before skip; [done|].
  simpl. destruct skip as [|k]; [|apply sublist_cons, IH].
  destruct (regexExec before (c :: tl)) as [[|n]|].
  - apply sublist_skip, IH.
  - apply sublist_cons, IH.
  - apply sublist_skip, IH.
Qed.

(** The fingerprint only removes: it is what is left of the text, in
    order, after some units were taken out, and no space unit is left in
    it. *)
Theorem textFingerprint_only_removes (text : JSString) :
  textFingerprint text `sublist_of` text
  /\ Forall (fun c => isSpace c = false) (textFingerprint text).
Proof.
  split; [|apply textFingerprint_no_space].
  destruct (trim_infix text) as (front & back & E & _).
  rewrite E at 2. apply sublist_inserts_l, sublist_inserts_r, replaceGo_sublist.
Qed.

(** ** Texts without [#] *)

Lemma replaceGo_no_hash (rest : JSString) (before : option N) :
  HASH ∉ rest -> replaceGo before 0 rest = stripSpace rest.
Proof.
  revert before. induction rest as [|c tl IH]; intros before Hh; [done|].
  apply not_elem_of_cons in Hh as [Hc Htl].
  unfold stripSpace in *. simpl. destruct (isSpace c) eqn:Hs.
  - rewrite regexExec_space by done. simpl. by apply IH.
  - rewrite regexExec_not_space by done.
    rewrite (proj2 (N.eqb_neq c HASH)) by congruence.
    rewrite andb_false_r. simpl. f_equal. by apply IH.
Qed.

Lemma stripSpace_spaces_around (front middle back : JSString) :
  Forall (fun u => isSpace u = true) front ->
  Forall (fun u => isSpace u = true) back ->
  stripSpace (front ++ middle ++ back) = stripSpace middle.
Proof.
  intros Hf Hb. rewrite !stripSpace_app.
  by rewrite (stripSpace_spaces front), (stripSpace_spaces back), app_nil_r.
Qed.

(** For a text that holds no [#], the fingerprint is the text with its
    space units removed; so two such texts that differ only in white space
    have the same fingerprint. *)
Theorem textFingerprint_without_hash (text other : JSString) :
  HASH ∉ text ->
  textFingerprint text = stripSpace text
  /\ (HASH ∉ other -> stripSpace other = stripSpace text ->
      textFingerprint other = textFingerprint text).
Proof.
  assert (forall t, HASH ∉ t -> textFingerprint t = stripSpace t) as H.
  { intros t Ht. destruct (trim_infix t) as (front & back & E & Hf & Hb).
    unfold textFingerprint, replaceAll. rewrite replaceGo_no_hash.
    - rewrite E at 2. by rewrite stripSpace_spaces_around.
    - intros Hin. apply Ht. rewrite E. apply elem_of_app. right.
      apply elem_of_app. by left. }
  intros Ht. split; [by apply H|]. intros Ho Heq. by rewrite !H.
Qed.

Lemma textFingerprint_without_hash_witness :
  textFingerprint (js "  x <- 1 ") = js "x<-1"
  /\ textFingerprint (js "x<- 1") = textFingerprint (js "  x <- 1 ").
Proof.
  destruct (textFingerprint_without_hash (js "  x <- 1 ") (js "x<- 1")) as [H1 H2].
  - by apply (bool_decide_unpack _).
  - split; [by rewrite H1|]. apply H2; [|done]. by apply (bool_decide_unpack _).
Defined.

(** A file with a comment at the top, indented by the leading blanks that
    [trim] removes, and one more in the first column. *)
Lemma textFingerprint_first_column_comments_witness :
  textFingerprint (js "  #a b" ++ [LF] ++ js "x <- 1" ++ [LF] ++ js "#c" ++ [LF] ++ js "y ")
  = js "x<-1y".
Proof.
  rewrite textFingerprint_first_column_comments; [reflexivity|].
  apply (bool_decide_unpack _). by vm_compute.
Defined.

End FingerprintMore.
